(** * maze_runner: maze generation and solving

    A shallow embedding of [maze_runner.py]: the code table, the conversions
    between the array and the text form of a maze, the generator [make_maze]
    and the exploration loop of [solve], followed by the properties proved
    about them.

    Conventions.
    - A numpy array of floats is a [list (list Z)]: every value the program
      stores is one of the numeric codes 0, 1, 2, 3, 5, 6, 7.
    - A Python [str] is a [list ascii].
    - Exceptions are the [Raise] results of the [result] monad.
    - The outcomes of [set.pop], [shuffle] and [randrange] are read from a
      stream of naturals carried through the computation, so that a statement
      quantified over every stream covers every run. *)

From Stdlib Require Import ZArith Ascii String Reals Lia.
From stdpp Require Import base tactics option list sorting gmap sets strings.

Local Open Scope Z_scope.
Local Coercion Z.of_nat : nat >-> Z.

(** ** Exceptions *)

Inductive exn := ValueError | IndexError.

Inductive result (A : Type) :=
  | Ok (a : A)
  | Raise (e : exn).
Arguments Ok {A} a.
Arguments Raise {A} e.

#[global] Instance exn_eq_dec : EqDecision exn.
Proof. solve_decision. Defined.

#[global] Instance result_ret : MRet result := fun A a => Ok a.
#[global] Instance result_bind : MBind result := fun A B f m =>
  match m with
  | Ok a => f a
  | Raise e => Raise e
  end.
#[global] Instance result_fmap : FMap result := fun A B f m =>
  match m with
  | Ok a => Ok (f a)
  | Raise e => Raise e
  end.

(** [o] or the exception [e] when [o] is [None]. *)
Definition or_raise {A} (e : exn) (o : option A) : result A :=
  match o with
  | Some a => Ok a
  | None => Raise e
  end.

(** ** The code table *)

(** A code is the tuple [(number, character, colour)] of the source. *)
Abbreviation code := (Z * ascii * list Z)%type.

Definition c0 (c : code) : Z := c.1.1.
Definition c1 (c : code) : ascii := c.1.2.
Definition c2 (c : code) : list Z := c.2.

Definition c_path : code := (0, " "%char, [255; 255; 255]).
Definition c_wall : code := (1, "#"%char, [0; 0; 0]).
Definition c_start : code := (2, "&"%char, [0; 255; 0]).
Definition c_end : code := (3, "!"%char, [0; 255; 255]).
Definition c_visited : code := (5, "."%char, [255; 0; 0]).
Definition c_finalpath : code := (6, "*"%char, [255; 255; 0]).
Definition c_current : code := (7, "@"%char, [0; 255; 255]).

Definition codes : list code :=
  [c_path; c_wall; c_start; c_end; c_visited; c_finalpath; c_current].

(** The seven cell states, one per entry of [codes]. *)
Inductive cell := Path | Wall | Start | End | Visited | FinalPath | Current.

#[global] Instance cell_eq_dec : EqDecision cell.
Proof. solve_decision. Defined.

Definition cells : list cell :=
  [Path; Wall; Start; End; Visited; FinalPath; Current].

Definition cell_code (s : cell) : code :=
  match s with
  | Path => c_path
  | Wall => c_wall
  | Start => c_start
  | End => c_end
  | Visited => c_visited
  | FinalPath => c_finalpath
  | Current => c_current
  end.

Definition cell_char (s : cell) : ascii := c1 (cell_code s).
Definition cell_color (s : cell) : list Z := c2 (cell_code s).

(** ** Arrays with numpy indexing *)

Abbreviation matrix := (list (list Z)).

(** An index [i] into an axis of size [n]: negative indices count from the
    end, anything outside [-n, n) is an [IndexError]. *)
Definition np_index (n : nat) (i : Z) : option nat :=
  if decide (0 ≤ i < n) then Some (Z.to_nat i)
  else if decide (- n ≤ i < 0) then Some (Z.to_nat (i + n))
  else None.

(** The position in the array that the index pair [(y, x)] denotes. *)
Definition locate (mat : matrix) (y x : Z) : option (nat * nat) :=
  iy ← np_index (length mat) y;
  row ← mat !! iy;
  ix ← np_index (length row) x;
  Some (iy, ix).

Definition cell_at (mat : matrix) (p : nat * nat) : option Z :=
  row ← mat !! p.1; row !! p.2.

Definition put_at (mat : matrix) (p : nat * nat) (v : Z) : matrix :=
  alter (fun row => <[p.2 := v]> row) p.1 mat.

(** [mat[y, x]] *)
Definition mat_get (mat : matrix) (y x : Z) : result Z :=
  or_raise IndexError (locate mat y x ≫= cell_at mat).

(** [mat[y, x] = v] *)
Definition mat_set (mat : matrix) (y x : Z) (v : Z) : result matrix :=
  or_raise IndexError ((fun p => put_at mat p v) <$> locate mat y x).

(** [np.zeros((h, w))] *)
Definition np_zeros (h w : Z) : result matrix :=
  if decide (h < 0 ∨ w < 0) then Raise ValueError
  else Ok (replicate (Z.to_nat h) (replicate (Z.to_nat w) 0)).

(** [mat[:, x] = v] *)
Definition set_col (mat : matrix) (x : Z) (v : Z) : result matrix :=
  match mat with
  | [] => Ok []
  | row :: _ =>
      ix ← or_raise IndexError (np_index (length row) x);
      Ok ((fun r => <[ix := v]> r) <$> mat)
  end.

(** [mat[y, :] = v] *)
Definition set_row (mat : matrix) (y : Z) (v : Z) : result matrix :=
  iy ← or_raise IndexError (np_index (length mat) y);
  Ok (alter (fun r => replicate (length r) v) iy mat).

(** [l[lo:hi]] for [0 <= lo] and [0 <= hi]. *)
Definition slice {A} (lo hi : Z) (l : list A) : list A :=
  drop (Z.to_nat lo) (take (Z.to_nat hi) l).

(** [mat[y0:y1, x0:x1]] *)
Definition mat_slice (y0 y1 x0 x1 : Z) (mat : matrix) : matrix :=
  slice x0 x1 <$> slice y0 y1 mat.

(** ** Text and array forms of a maze *)

Abbreviation text := (list ascii).

Definition nl : ascii := "010"%char.

(** [s.split(sep)] for a one-character separator. *)
Fixpoint split (sep : ascii) (s : text) : list text :=
  match s with
  | [] => [[]]
  | c :: s' =>
      if decide (c = sep) then [] :: split sep s'
      else match split sep s' with
           | l :: ls => (c :: l) :: ls
           | [] => [[c]]
           end
  end.

(** The innermost loop of [string_to_array_maze]: every code whose character
    is [c] is stored at [(y, x)], in table order. *)
Definition store_char (y x : nat) (c : ascii) (mat : matrix) : result matrix :=
  foldl (fun acc cd =>
           m ← acc;
           if decide (c = c1 cd) then mat_set m y x (c0 cd) else Ok m)
        (Ok mat) codes.

Fixpoint store_line (y x : nat) (line : text) (mat : matrix) : result matrix :=
  match line with
  | [] => Ok mat
  | c :: line' => m ← store_char y x c mat; store_line y (S x) line' m
  end.

Fixpoint store_lines (y : nat) (lines : list text) (mat : matrix) : result matrix :=
  match lines with
  | [] => Ok mat
  | line :: lines' => m ← store_line y 0 line mat; store_lines (S y) lines' m
  end.

Definition string_to_array_maze (maze : text) : result matrix :=
  let lines := split nl maze in
  mat ← np_zeros (length lines) (length (hd [] lines));
  store_lines 0 lines mat.

(** The character appended for the value [c]: that of the first code whose
    number is [c], nothing when there is none. *)
Definition char_of_value (c : Z) : text :=
  match find (fun cd => bool_decide (c = c0 cd)) codes with
  | Some cd => [c1 cd]
  | None => []
  end.

Definition line_to_string (line : list Z) : text :=
  (line ≫= char_of_value) ++ [nl].

Definition array_to_string_maze (mat : matrix) : text :=
  mat ≫= line_to_string.

(** [array_to_color_codes_maze]: the colour of the last code in the table
    whose number is the value, [[0; 0; 0]] when there is none. *)
Definition color_of_value (c : Z) : list Z :=
  foldl (fun acc cd => if decide (c = c0 cd) then c2 cd else acc) [0; 0; 0] codes.

Definition array_to_color_codes_maze (mat : matrix) : list (list (list Z)) :=
  (fun line : list Z => color_of_value <$> line) <$> mat.

Definition txt (s : string) : text := list_ascii_of_string s.

(** ** Random and arbitrary choices *)

(** The numbers still to be drawn. An exhausted stream yields 0. *)
Abbreviation rng := (list nat).

Definition draw (r : rng) : nat * rng :=
  match r with
  | [] => (0%nat, [])
  | n :: r' => (n, r')
  end.

(** A number below [n], for [0 < n]. *)
Definition randbelow (n : nat) (r : rng) : nat * rng :=
  let '(k, r') := draw r in (k mod n, r')%nat.

(** [randrange(n)] *)
Definition randrange (n : nat) (r : rng) : result (nat * rng) :=
  if decide (n = 0%nat) then Raise ValueError else Ok (randbelow n r).

(** [x[i], x[j] = x[j], x[i]] *)
Definition swap {A} (i j : nat) (l : list A) : list A :=
  match l !! i, l !! j with
  | Some a, Some b => <[j := a]> (<[i := b]> l)
  | _, _ => l
  end.

(** [random.shuffle]: for [i] from [len(x) - 1] down to 1, swap [x[i]] with
    [x[j]] for a [j] drawn below [i + 1]. *)
Fixpoint shuffle_from {A} (i : nat) (l : list A) (r : rng) : list A * rng :=
  match i with
  | O => (l, r)
  | S i' => let '(j, r') := randbelow (S i) r in shuffle_from i' (swap i j l) r'
  end.

Definition shuffle {A} (l : list A) (r : rng) : list A * rng :=
  shuffle_from (length l - 1) l r.

(** [s.pop()] on a set: an arbitrary element, here the one the stream
    selects, and the set without it. *)
Definition set_pop (s : gset (Z * Z)) (r : rng) : option ((Z * Z) * gset (Z * Z) * rng) :=
  let l := elements s in
  let '(k, r') := randbelow (length l) r in
  p ← l !! k; Some (p, s ∖ {[p]}, r').

(** ** make_maze *)

(** A value held by the list [visiting]. [visiting += current] appends the
    two numbers of the tuple [current], not the tuple. *)
Inductive pyval :=
  | PInt (n : Z)
  | PTuple (p : Z * Z).

#[global] Instance pyval_eq_dec : EqDecision pyval.
Proof. solve_decision. Defined.

(** [[y for y in range(n) if y % 2 != 0]] *)
Definition odds (n : Z) : list Z :=
  filter (fun y => y `mod` 2 ≠ 0) (seqZ 0 n).

(** The two nested loops that mark the cells with odd coordinates. *)
Definition mark_cells (h w : Z) (mat : matrix)
  : result (matrix * gset (Z * Z)) :=
  foldl (fun acc x =>
           foldl (fun acc y =>
                    '(m, unvisited) ← acc;
                    m' ← mat_set m y x 1;
                    Ok (m', unvisited ∪ {[(y, x)]}))
                 acc (odds h))
        (Ok (mat, ∅)) (odds w).

Definition neighbors2 (current : Z * Z) : list (Z * Z) :=
  [(current.1 - 2, current.2); (current.1 + 2, current.2);
   (current.1, current.2 - 2); (current.1, current.2 + 2)].

(** The cell the [if]/[elif] chain writes for the pair [current], [chosen]. *)
Definition carved (current chosen : Z * Z) : option (Z * Z) :=
  if decide (chosen.1 + 2 = current.1) then Some (current.1 - 1, current.2)
  else if decide (chosen.1 - 2 = current.1) then Some (current.1 + 1, current.2)
  else if decide (chosen.2 + 2 = current.2) then Some (current.1, current.2 - 1)
  else if decide (chosen.2 - 2 = current.2) then Some (current.1, current.2 + 1)
  else None.

Record carver := Carver {
  g_unvisited : gset (Z * Z);
  g_visiting : list pyval;
  g_mat : matrix;
  g_rng : rng
}.

(** One iteration of [while unvisited], for a non-empty [unvisited]. *)
Definition carve_iter (g : carver) : result carver :=
  '(current, unvisited, r) ← or_raise IndexError (set_pop (g_unvisited g) (g_rng g));
  let unvisited_neighbors :=
    filter (fun n => n ∈ unvisited ∧ PTuple n ∉ g_visiting g) (neighbors2 current) in
  match unvisited_neighbors with
  | _ :: _ =>
      let '(shuffled, r') := shuffle unvisited_neighbors r in
      let visiting := g_visiting g ++ [PInt current.1; PInt current.2] in
      chosen ← or_raise IndexError (shuffled !! 0%nat);
      m ← match carved current chosen with
          | Some p => mat_set (g_mat g) p.1 p.2 1
          | None => Ok (g_mat g)
          end;
      Ok (Carver unvisited visiting m r')
  | [] =>
      Ok (Carver unvisited (removelast (g_visiting g)) (g_mat g) r)
  end.

(** [while unvisited: ...]; [None] when [fuel] iterations do not finish it. *)
Fixpoint carve (fuel : nat) (g : carver) : option (result carver) :=
  if decide (g_unvisited g = ∅) then Some (Ok g)
  else match fuel with
       | O => None
       | S fuel' =>
           match carve_iter g with
           | Ok g' => carve fuel' g'
           | Raise e => Some (Raise e)
           end
       end.

(** [[i for i, c in enumerate(maze) if c == ' ']] *)
Definition spaces_of (maze : text) : list nat :=
  (fun ic => ic.1) <$> filter (fun ic => ic.2 = c1 c_path) (imap pair maze).

(** The last block of [make_maze]: the optional Start and End cells. *)
Definition place (start end_ : bool) (maze : text) (r : rng) : result text :=
  let spaces := spaces_of maze in
  '(maze, spaces, r) ←
    (if start then
       '(i, r') ← randrange (length spaces) r;
       pos ← or_raise IndexError (spaces !! i);
       Ok (<[pos := c1 c_start]> maze, delete i spaces, r')
     else Ok (maze, spaces, r));
  if end_ then
    '(j, _) ← randrange (length spaces) r;
    pos ← or_raise IndexError (spaces !! j);
    Ok (<[pos := c1 c_end]> maze)
  else Ok maze.

(** The array [mat] of [make_maze] as it is passed to
    [array_to_string_maze]. *)
Definition make_grid (w h : Z) (r : rng) : option (result (matrix * rng)) :=
  let h := h + 1 in
  let w := w + 1 in
  match np_zeros h w ≫= mark_cells h w with
  | Raise e => Some (Raise e)
  | Ok (mat, unvisited) =>
      g ← carve (size unvisited) (Carver unvisited [] mat r);
      Some (g ← g;
            mat ← set_col (g_mat g) 1 1;
            mat ← set_col mat (w - 2) 1;
            mat ← set_row mat 1 1;
            mat ← set_row mat (h - 2) 1;
            Ok (mat_slice 1 (h - 1) 1 (w - 1) mat, g_rng g))
  end.

(** [make_maze(w, h, start, end)]; [None] only if the carving loop did not
    finish within as many iterations as there are cells to visit. *)
Definition make_maze (w h : Z) (start end_ : bool) (r : rng)
  : option (result text) :=
  g ← make_grid w h r;
  Some ('(mat, r') ← g; place start end_ (array_to_string_maze mat) r').

(** ** distance *)

(** The number under the square root of [distance]. *)
Definition distance2 (p1 p2 : Z * Z) : Z :=
  let '((y2, x2), (y1, x1)) := (p2, p1) in
  (x2 - x1) ^ 2 + (y2 - y1) ^ 2.


(** [sorted(l, key=...)]: a stable sort, ascending in the key. The keys are
    compared through their squares, which orders them as [distance] does
    (lemma [distance_le] below). *)
Fixpoint insert_by {A} (key : A → Z) (a : A) (l : list A) : list A :=
  match l with
  | [] => [a]
  | b :: l' => if decide (key a ≤ key b) then a :: l else b :: insert_by key a l'
  end.

Definition sorted {A} (key : A → Z) (l : list A) : list A :=
  foldr (insert_by key) [] l.

(** ** solve *)

(** The local variables of [solve] that the loop updates. *)
Record solver := Solver {
  s_mat : matrix;
  s_stack : list (Z * Z);
  s_current : Z * Z;
  s_step : Z;
  s_explored : Z;
  s_walked : Z;
  s_max_depth : Z;
  s_rng : rng
}.

(** The arguments and locals of [solve] that the loop only reads. *)
Record setup := Setup {
  strategy : string;
  verbosity : Z;
  paths : nat;
  start : Z * Z;
  end_ : Z * Z
}.

(** [np.nonzero(mat == v)] reduced to its first hit in row-major order, which
    is all that [solve] reads of it; [None] when there is no hit. *)
Definition nonzero_first (mat : matrix) (v : Z) : option (Z * Z) :=
  head (omap (fun '(y, row) =>
                (fun x => (Z.of_nat y, Z.of_nat x)) <$>
                  (fst <$> list_find (fun c => c = v) row))
             (imap pair mat)).

(** [np.sum(mat == v)] *)
Definition count_eq (mat : matrix) (v : Z) : nat :=
  length (filter (fun c => c = v) (mjoin mat)).

(** [stack.pop(0)] under 'bfs', [stack.pop()] otherwise. *)
Definition pop (strat : string) (stack : list (Z * Z))
  : option ((Z * Z) * list (Z * Z)) :=
  if decide (strat = "bfs"%string) then
    match stack with
    | [] => None
    | c :: rest => Some (c, rest)
    end
  else
    c ← last stack; Some (c, removelast stack).

Definition neighbors4 (y x : Z) : list (Z * Z) :=
  [(y - 1, x); (y, x - 1); (y + 1, x); (y, x + 1)].

Definition admissible (v : Z) : bool :=
  bool_decide (v ∉ [c0 c_wall; c0 c_visited]).

(** The loop over [prospective_next]: the cells are read in order, the first
    read out of range raises. *)
Fixpoint prospect (mat : matrix) (ps : list (Z * Z)) : result (list (Z * Z)) :=
  match ps with
  | [] => Ok []
  | p :: ps' =>
      v ← mat_get mat p.1 p.2;
      rest ← prospect mat ps';
      Ok (if admissible v then p :: rest else rest)
  end.

(** How an iteration of the loop ends. *)
Inductive flow :=
  | Continue (s : solver)
  | Break (s : solver).

(** The body of [while stack], for the popped cell [current] and the rest of
    the stack. Printing, the progress bar, the pauses and the image file are
    not modelled. *)
Definition solve_body (cfg : setup) (s : solver) (current : Z * Z)
    (rest : list (Z * Z)) : result flow :=
  let '(y, x) := current in
  let step := s_step s + 1 in
  mat ← mat_set (s_mat s) y x (c0 c_current);
  let max_depth := if decide (step > s_max_depth s) then step else s_max_depth s in
  let explored := s_explored s + 1 in
  let walked := s_walked s + 1 in
  if decide (current = end_ cfg) then
    mat ← mat_set mat (start cfg).1 (start cfg).2 (c0 c_start);
    mat ← mat_set mat y x (c0 c_end);
    Ok (Break (Solver mat rest current step explored walked max_depth (s_rng s)))
  else
    mat ← mat_set mat y x (c0 c_visited);
    next ← prospect mat (neighbors4 y x);
    let '(next, r) :=
      if decide (strategy cfg = "a*"%string)
      then (sorted (fun p => distance2 p (end_ cfg)) next, s_rng s)
      else shuffle next (s_rng s) in
    let stack := rest ++ next in
    let walked := walked + 1 in
    mat ← (if decide (verbosity cfg >= 3) then mat_set mat y x (c0 c_current)
           else Ok mat);
    Ok (Continue (Solver mat stack current step explored walked max_depth r)).

(** One iteration of [while stack]; [None] when the stack is empty. *)
Definition solve_iter (cfg : setup) (s : solver) : option (result flow) :=
  '(current, rest) ← pop (strategy cfg) (s_stack s);
  Some (solve_body cfg s current rest).

(** How the loop ends: by [break] at the End cell, or with an empty stack. *)
Inductive verdict :=
  | ExitAt (s : solver)
  | Exhausted (s : solver).

(** [while stack: ...]; [None] when [fuel] iterations do not finish it. *)
Fixpoint solve_loop (fuel : nat) (cfg : setup) (s : solver)
  : option (result verdict) :=
  match solve_iter cfg s with
  | None => Some (Ok (Exhausted s))
  | Some body =>
      match fuel with
      | O => None
      | S fuel' =>
          match body with
          | Raise e => Some (Raise e)
          | Ok (Break s') => Some (Ok (ExitAt s'))
          | Ok (Continue s') => solve_loop fuel' cfg s'
          end
      end
  end.

(** The part of [solve] before the loop. *)
Definition solve_init (maze : text) (strat : string) (verb : Z) (r : rng)
  : result (setup * solver) :=
  if decide (strat ∉ ["dfs"; "bfs"; "a*"]%string) then Raise ValueError
  else
    mat ← string_to_array_maze maze;
    let paths := count_eq mat 0 in
    start ← or_raise IndexError (nonzero_first mat (c0 c_start));
    end_ ← or_raise IndexError (nonzero_first mat (c0 c_end));
    let current := start in
    let stack := [current] in
    Ok (Setup strat verb paths start end_,
        Solver mat stack current 0 0 0 0 r).

Definition solve (fuel : nat) (maze : text) (strat : string) (verb : Z) (r : rng)
  : option (result verdict) :=
  match solve_init maze strat verb r with
  | Raise e => Some (Raise e)
  | Ok (cfg, s) => solve_loop fuel cfg s
  end.

(** The state after [k] iterations, when the loop runs that long. *)
Fixpoint after_pops (k : nat) (cfg : setup) (s : solver) : option flow :=
  match k with
  | O => Some (Continue s)
  | S k' =>
      match after_pops k' cfg s with
      | Some (Continue s') =>
          match solve_iter cfg s' with
          | Some (Ok f) => Some f
          | _ => None
          end
      | _ => None
      end
  end.

Definition flow_state (f : flow) : solver :=
  match f with
  | Continue s => s
  | Break s => s
  end.

(** The cells of [ps] that may be stepped on: in range and neither Wall nor
    Visited. *)
Definition admissible_cell (mat : matrix) (p : Z * Z) : bool :=
  match mat_get mat p.1 p.2 with
  | Ok v => admissible v
  | Raise _ => false
  end.

(** ** Vocabulary of the statements *)

(** The text whose lines are [rows], every line closed by a line break. *)
Definition unlines (rows : list text) : text :=
  rows ≫= fun row => row ++ [nl].

(** The cell in row [i] and column [j] of a grid given by its rows. *)
Definition at_rc {A} (rows : list (list A)) (i j : nat) : option A :=
  row ← rows !! i; row !! j.

(** Every cell of the first and last row and of the first and last column
    is [wall]. *)
Definition border_is {A} (wall : A) (rows : list (list A)) : Prop :=
  ∀ i j row c,
    rows !! i = Some row → row !! j = Some c →
    i = 0%nat ∨ S i = length rows ∨ j = 0%nat ∨ S j = length row →
    c = wall.

(** An array of [h] rows and [w] columns. *)
Definition has_shape (h w : nat) (mat : matrix) : Prop :=
  length <$> mat = replicate h w.

(** An array that holds Path and Wall cells only. *)
Definition binary (mat : matrix) : Prop :=
  Forall (Forall (fun v => v = c0 c_path ∨ v = c0 c_wall)) mat.

(** The character printed for a Path or Wall cell. *)
Definition glyph (v : Z) : ascii :=
  if decide (v = c0 c_path) then c1 c_path else c1 c_wall.

Definition glyph_rows (mat : matrix) : list text :=
  (fun row : list Z => glyph <$> row) <$> mat.

(** Two characters of the same kind: both the Wall character or neither,
    both the line break or neither. *)
Definition same_kind (a b : ascii) : Prop :=
  (a = c1 c_wall ↔ b = c1 c_wall) ∧ (a = nl ↔ b = nl).

(** A Path cell of a maze given by its lines. *)
Definition is_path (rows : list text) (p : nat * nat) : Prop :=
  at_rc rows p.1 p.2 = Some (c1 c_path).

(** Two cells next to each other in a row or in a column. *)
Definition adjacent (p q : nat * nat) : Prop :=
  (p.1 = q.1 ∧ (p.2 = S q.2 ∨ q.2 = S p.2)) ∨
  (p.2 = q.2 ∧ (p.1 = S q.1 ∨ q.1 = S p.1)).

(** A step from a Path cell to an adjacent Path cell. *)
Definition walk (rows : list text) (p q : nat * nat) : Prop :=
  adjacent p q ∧ is_path rows p ∧ is_path rows q.

Definition connected (rows : list text) (p q : nat * nat) : Prop :=
  rtc (walk rows) p q.

Fixpoint linked (l : list (nat * nat)) : Prop :=
  match l with
  | a :: (b :: _) as l' => adjacent a b ∧ linked l'
  | _ => True
  end.

(** A path through Path cells from [p] to [q] that visits no cell twice. *)
Definition simple_path (rows : list text) (p q : nat * nat)
    (l : list (nat * nat)) : Prop :=
  head l = Some p ∧ last l = Some q ∧ NoDup l ∧
  Forall (is_path rows) l ∧ linked l.

(** A perfect maze: any two Path cells are joined by exactly one simple
    path. *)
Definition perfect (rows : list text) : Prop :=
  ∀ p q, is_path rows p → is_path rows q →
    connected rows p q ∧
    ∀ l1 l2, simple_path rows p q l1 → simple_path rows p q l2 → l1 = l2.

(** An index pair inside an array of [h] rows and [w] columns, with no
    negative index. *)
Definition in_grid (h w : nat) (p : Z * Z) : Prop :=
  0 ≤ p.1 < h ∧ 0 ≤ p.2 < w.

(** The value at a pair of non-negative indices. *)
Definition cellZ (mat : matrix) (p : Z * Z) : option Z :=
  cell_at mat (Z.to_nat p.1, Z.to_nat p.2).

(** What the loop of [solve] keeps true of an array whose border is Wall:
    the shape and the border stay, and the stack holds cells inside the
    array that are not Wall cells. *)
Definition solver_inv (h w : nat) (cfg : setup) (s : solver) : Prop :=
  has_shape h w (s_mat s) ∧
  border_is 1 (s_mat s) ∧
  ∀ p, p = start cfg ∨ p ∈ s_stack s →
       in_grid h w p ∧ cellZ (s_mat s) p ≠ Some 1.

(** 1 for an element that satisfies [P], 0 for another. *)
Definition weight {A} (P : A → Prop) `{!∀ a, Decision (P a)} (a : A) : nat :=
  if decide (P a) then 1%nat else 0%nat.

(** The number of cells of the array that may still be stepped on. *)
Definition open_cells (mat : matrix) : nat :=
  length (filter (fun v => admissible v) (mjoin mat)).

(** The number of entries of the stack whose cell may no longer be stepped
    on. *)
Definition stale (mat : matrix) (stack : list (Z * Z)) : nat :=
  length (filter (fun p => ¬ admissible_cell mat p) stack).

(** The three ways in which the loop of [solve] stops. *)
Definition loop_outcome (cfg : setup) (v : result verdict) : Prop :=
  match v with
  | Ok (ExitAt s) => s_current s = end_ cfg
  | Ok (Exhausted s) => s_stack s = []
  | Raise e => e = IndexError
  end.

(** * Properties *)

(** ** The result monad *)

Lemma bind_Ok {A B} (f : A → result B) (m : result A) (b : B) :
  m ≫= f = Ok b ↔ ∃ a, m = Ok a ∧ f a = Ok b.
Proof.
  destruct m as [a|e]; simpl; split.
  - eauto.
  - intros (a' & [= <-] & ?); done.
  - done.
  - intros (? & ? & ?); done.
Qed.

Lemma or_raise_Ok {A} (e : exn) (o : option A) (a : A) :
  or_raise e o = Ok a ↔ o = Some a.
Proof. destruct o; simpl; split; congruence. Qed.

Ltac bind_step := unfold mbind, result_bind; cbn beta iota.

Ltac inv_bind H :=
  let a := fresh "a" in
  let Ha := fresh "Ha" in
  apply bind_Ok in H as (a & Ha & H).

(** ** The code table *)

Lemma codes_cells : codes = cell_code <$> cells.
Proof. reflexivity. Qed.

(** C3, as stated, fails: the states End and Current are distinct and have
    the same colour. *)
Lemma end_current_share_color :
  End ≠ Current ∧ cell_color End = cell_color Current.
Proof. split; [discriminate | reflexivity]. Qed.

(** C3, amended: two distinct cell states never have the same character, and
    they have the same colour exactly when they are End and Current. *)
Theorem cell_codes_distinct (s1 s2 : cell) :
  s1 ≠ s2 →
  cell_char s1 ≠ cell_char s2 ∧
  (cell_color s1 = cell_color s2 ↔
   (s1 = End ∧ s2 = Current) ∨ (s1 = Current ∧ s2 = End)).
Proof.
  intros Hne. split.
  - destruct s1, s2; solve [discriminate | congruence].
  - split.
    + destruct s1, s2; intros Hc; solve [discriminate | congruence | auto].
    + intros [[-> ->] | [-> ->]]; reflexivity.
Qed.

Lemma cell_codes_distinct_witness :
  Start ≠ End ∧ cell_char Start ≠ cell_char End.
Proof.
  split; [discriminate |].
  apply (cell_codes_distinct Start End). discriminate.
Defined.

(** ** Counters of the exploration loop *)

Lemma solve_body_counters cfg s cur rest f :
  solve_body cfg s cur rest = Ok f →
  s_current (flow_state f) = cur ∧
  s_step (flow_state f) = s_step s + 1 ∧
  s_explored (flow_state f) = s_explored s + 1 ∧
  s_max_depth (flow_state f) = Z.max (s_max_depth s) (s_step s + 1) ∧
  (if decide (cur = end_ cfg)
   then f = Break (flow_state f) ∧ s_walked (flow_state f) = s_walked s + 1
   else f = Continue (flow_state f) ∧ s_walked (flow_state f) = s_walked s + 2).
Proof.
  unfold solve_body. destruct cur as [y x]. intros H.
  inv_bind H. destruct (decide ((y, x) = end_ cfg)) as [He|He].
  - inv_bind H. inv_bind H. injection H as <-. simpl.
    repeat split; try done.
    destruct (decide (s_step s + 1 > s_max_depth s)); lia.
  - inv_bind H. inv_bind H.
    destruct (if decide (strategy cfg = "a*"%string) then _ else _) as [next r].
    inv_bind H. injection H as <-. simpl.
    repeat split; try done; [|lia].
    destruct (decide (s_step s + 1 > s_max_depth s)); lia.
Qed.

Lemma solve_iter_body cfg s f :
  solve_iter cfg s = Some (Ok f) →
  ∃ cur rest, pop (strategy cfg) (s_stack s) = Some (cur, rest) ∧
              solve_body cfg s cur rest = Ok f.
Proof.
  unfold solve_iter. destruct (pop _ _) as [[cur rest]|]; simpl; [|done].
  intros [= H]. eauto.
Qed.

Lemma after_pops_S k cfg s f :
  after_pops (S k) cfg s = Some f →
  ∃ s', after_pops k cfg s = Some (Continue s') ∧ solve_iter cfg s' = Some (Ok f).
Proof.
  simpl. destruct (after_pops k cfg s) as [[s'|s']|]; try done.
  destruct (solve_iter cfg s') as [[f'|e]|] eqn:Hit; try done.
  intros [= ->]. eauto.
Qed.

Lemma solve_init_counters maze strat verb r cfg s0 :
  solve_init maze strat verb r = Ok (cfg, s0) →
  s_step s0 = 0 ∧ s_explored s0 = 0 ∧ s_walked s0 = 0 ∧ s_max_depth s0 = 0.
Proof.
  unfold solve_init. intros H. case_decide; [done|].
  inv_bind H. inv_bind H. inv_bind H. by injection H as <- <-.
Qed.

Lemma counters_running cfg s0 k s :
  s_step s0 = 0 → s_explored s0 = 0 → s_walked s0 = 0 → s_max_depth s0 = 0 →
  after_pops k cfg s0 = Some (Continue s) →
  s_step s = k ∧ s_explored s = k ∧ s_max_depth s = k ∧ s_walked s = 2 * k.
Proof.
  intros H1 H2 H3 H4. revert s. induction k as [|k IH]; intros s Hk.
  - injection Hk as <-. lia.
  - apply after_pops_S in Hk as (s' & Hk & Hit).
    destruct (IH _ Hk) as (? & ? & ? & ?).
    apply solve_iter_body in Hit as (cur & rest & _ & Hb).
    apply solve_body_counters in Hb as (_ & ? & ? & ? & Hw). simpl in *.
    case_decide; destruct Hw as [[=] ?]. lia.
Qed.

(** C10: after the k-th pop the counters [step], [explored] and
    [max_depth] are all k, and [walked] is 2k - 1 when the cell popped is
    the End cell and 2k otherwise. *)
Theorem counters_after_pops maze strat verb r cfg s0 (k : nat) f :
  solve_init maze strat verb r = Ok (cfg, s0) →
  (1 ≤ k)%nat →
  after_pops k cfg s0 = Some f →
  s_step (flow_state f) = k ∧
  s_explored (flow_state f) = k ∧
  s_max_depth (flow_state f) = k ∧
  s_walked (flow_state f) =
    if decide (s_current (flow_state f) = end_ cfg) then 2 * k - 1 else 2 * k.
Proof.
  intros Hinit Hk Hf. destruct k as [|k]; [lia|].
  apply solve_init_counters in Hinit as (? & ? & ? & ?).
  apply after_pops_S in Hf as (s' & Hk' & Hit).
  apply counters_running in Hk' as (? & ? & ? & ?); [|done..].
  apply solve_iter_body in Hit as (cur & rest & _ & Hb).
  apply solve_body_counters in Hb as (-> & ? & ? & ? & Hw).
  case_decide; destruct Hw as [_ ?]; lia.
Qed.

Lemma counters_after_pops_witness :
  ∃ cfg s0 f,
    solve_init (txt "#####
#& !#
#####") "a*" 0 [] = Ok (cfg, s0) ∧
    after_pops 3 cfg s0 = Some f ∧
    s_step (flow_state f) = 3 ∧ s_walked (flow_state f) = 5.
Proof.
  eexists _, _, _. split; [vm_compute; reflexivity|].
  split; [vm_compute; reflexivity|].
  pose proof (counters_after_pops (txt "#####
#& !#
#####") "a*" 0 [] _ _ 3 _ eq_refl ltac:(lia) eq_refl) as (H1 & _ & _ & H4).
  split; [exact H1 | exact H4].
Defined.

(** ** The ordering of the neighbours under 'a*' *)



Section sorted.
Context {A : Type} (key : A → Z).

Lemma insert_by_perm a l : insert_by key a l ≡ₚ a :: l.
Proof.
  induction l as [|b l IH]; simpl; [done|].
  case_decide; [done|]. rewrite IH. apply Permutation_swap.
Qed.

Lemma sorted_perm l : sorted key l ≡ₚ l.
Proof.
  induction l as [|a l IH]; simpl; [done|].
  by rewrite insert_by_perm, IH.
Qed.


End sorted.


Lemma prospect_filter mat ps next :
  prospect mat ps = Ok next → next = filter (admissible_cell mat) ps.
Proof.
  revert next. induction ps as [|p ps IH]; simpl; intros next H.
  - by injection H as <-.
  - inv_bind H. inv_bind H. injection H as <-.
    assert (admissible_cell mat p = admissible a) as Hadm
      by (unfold admissible_cell; by rewrite Ha).
    rewrite filter_cons, <-(IH _ Ha0), <-Hadm.
    by destruct (admissible_cell mat p).
Qed.

Lemma pop_last strat stack cur rest :
  strat ≠ "bfs"%string →
  pop strat stack = Some (cur, rest) → stack = rest ++ [cur].
Proof.
  unfold pop. intros Hs. case_decide; [done|].
  destruct (last stack) as [c|] eqn:Hl; simpl; [|done].
  intros [= <- <-]. apply last_Some in Hl as [l' ->].
  by rewrite removelast_last.
Qed.



(** ** Arrays *)

Lemma np_index_Some (n : nat) (i : Z) (k : nat) :
  np_index n i = Some k →
  (k < n)%nat ∧ (Z.of_nat k = i ∨ (i < 0 ∧ Z.of_nat k = i + n)).
Proof. unfold np_index. repeat case_decide; intros [= <-]; lia. Qed.

Lemma np_index_in_range (n : nat) (i : Z) :
  0 ≤ i < n → np_index n i = Some (Z.to_nat i).
Proof. intros. unfold np_index. by rewrite decide_True. Qed.

Lemma np_index_of_nat (n k : nat) :
  (k < n)%nat → np_index n k = Some k.
Proof. intros. rewrite np_index_in_range by lia. by rewrite Nat2Z.id. Qed.

Lemma locate_Some mat y x p :
  locate mat y x = Some p ↔
  ∃ row, np_index (length mat) y = Some p.1 ∧ mat !! p.1 = Some row ∧
         np_index (length row) x = Some p.2.
Proof.
  unfold locate. destruct p as [iy ix]. simpl. split.
  - destruct (np_index (length mat) y) as [iy'|]; simpl; [|done].
    destruct (mat !! iy') as [row|] eqn:Hrow; simpl; [|done].
    destruct (np_index (length row) x) as [ix'|] eqn:Hx; simpl; [|done].
    intros [= <- <-]. eauto.
  - intros (row & -> & Hrow & Hx). simpl. rewrite Hrow. simpl. by rewrite Hx.
Qed.

Lemma locate_cell mat y x p :
  locate mat y x = Some p → is_Some (cell_at mat p).
Proof.
  intros (row & _ & Hrow & Hx)%locate_Some. unfold cell_at. rewrite Hrow. simpl.
  apply lookup_lt_is_Some. by apply np_index_Some in Hx as [? _].
Qed.

Lemma locate_ext m1 m2 y x :
  length <$> m1 = length <$> m2 → locate m1 y x = locate m2 y x.
Proof.
  intros Hl. unfold locate.
  assert (length m1 = length m2) as ->.
  { by rewrite <-(length_fmap length m1), Hl, length_fmap. }
  destruct (np_index (length m2) y) as [iy|]; simpl; [|done].
  pose proof (f_equal (.!! iy) Hl) as Hrow. simpl in Hrow.
  rewrite !list_lookup_fmap in Hrow.
  destruct (m1 !! iy), (m2 !! iy); simplify_eq/=; [|done]. by rewrite Hrow.
Qed.

Lemma put_at_lengths mat p v : length <$> put_at mat p v = length <$> mat.
Proof.
  unfold put_at. apply list_eq. intros i.
  rewrite !list_lookup_fmap, list_lookup_alter.
  case_decide; [subst|done]. destruct (mat !! p.1); simpl; [|done].
  by rewrite length_insert.
Qed.

Lemma cell_at_put_at mat p q v :
  is_Some (cell_at mat p) →
  cell_at (put_at mat p v) q = if decide (q = p) then Some v else cell_at mat q.
Proof.
  unfold cell_at, put_at. destruct p as [py px], q as [qy qx]. simpl.
  intros [old Hold]. rewrite list_lookup_alter.
  destruct (mat !! py) as [row|] eqn:Hrow; simpl in Hold; [|done].
  destruct (decide (py = qy)) as [<-|Hy].
  - rewrite Hrow. simpl. rewrite list_lookup_insert.
    apply lookup_lt_Some in Hold.
    destruct (decide (px = qx)) as [<-|Hx].
    + rewrite decide_True by done. by rewrite decide_True.
    + rewrite decide_False by lia. by rewrite decide_False by congruence.
  - by rewrite decide_False by congruence.
Qed.

Lemma mat_set_Ok mat y x v mat' :
  mat_set mat y x v = Ok mat' ↔
  ∃ p, locate mat y x = Some p ∧ mat' = put_at mat p v.
Proof.
  unfold mat_set. destruct (locate mat y x) as [p|]; simpl; split.
  - intros [= <-]. eauto.
  - by intros (? & [= <-] & ->).
  - done.
  - by intros (? & ? & _).
Qed.

Lemma mat_get_Ok mat y x v :
  mat_get mat y x = Ok v ↔
  ∃ p, locate mat y x = Some p ∧ cell_at mat p = Some v.
Proof.
  unfold mat_get. destruct (locate mat y x) as [p|]; simpl; split.
  - destruct (cell_at mat p) eqn:?; simpl; [intros [= <-]; eauto | done].
  - intros (? & [= <-] & ->). done.
  - done.
  - by intros (? & ? & _).
Qed.

Lemma mat_set_Raise mat y x v e : mat_set mat y x v = Raise e → e = IndexError.
Proof. unfold mat_set. destruct (locate mat y x); simpl; congruence. Qed.

Lemma mat_set_lengths mat y x v mat' :
  mat_set mat y x v = Ok mat' → length <$> mat' = length <$> mat.
Proof. intros (p & _ & ->)%mat_set_Ok. apply put_at_lengths. Qed.

Lemma mat_set_length mat y x v mat' :
  mat_set mat y x v = Ok mat' → length mat' = length mat.
Proof.
  intros H%mat_set_lengths. by rewrite <-(length_fmap length mat'), H, length_fmap.
Qed.

Lemma mat_set_Forall (P : Z → Prop) mat y x v mat' :
  mat_set mat y x v = Ok mat' → P v →
  Forall (Forall P) mat → Forall (Forall P) mat'.
Proof.
  intros (p & _ & ->)%mat_set_Ok Hv Hm. unfold put_at.
  apply Forall_alter; [done|]. intros row _ Hrow. by apply Forall_insert.
Qed.

Lemma mat_set_locate mat y x v mat' y' x' :
  mat_set mat y x v = Ok mat' → locate mat' y' x' = locate mat y' x'.
Proof. intros H%mat_set_lengths. by apply locate_ext. Qed.

(** Reading after writing: the written cell holds the new value, every
    other cell its old one. *)
Lemma mat_get_set mat y x v mat' y' x' :
  mat_set mat y x v = Ok mat' →
  mat_get mat' y' x' =
    if decide (locate mat y' x' = locate mat y x) then Ok v else mat_get mat y' x'.
Proof.
  intros H. unfold mat_get. rewrite (mat_set_locate _ _ _ _ _ _ _ H).
  apply mat_set_Ok in H as (p & Hp & ->). rewrite Hp.
  destruct (locate mat y' x') as [q|]; simpl.
  - rewrite cell_at_put_at by (by eapply locate_cell).
    destruct (decide (q = p)) as [->|?]; case_decide; simpl; congruence.
  - first [done | by case_decide].
Qed.

(** ** Parsing and printing *)

Lemma split_cons_nl sep s : ∃ l ls, split sep s = l :: ls.
Proof.
  induction s as [|c s (l & ls & IH)]; simpl; [eauto|].
  case_decide; [eauto|]. rewrite IH. eauto.
Qed.

Lemma split_chars sep s l c : l ∈ split sep s → c ∈ l → c ∈ s ∧ c ≠ sep.
Proof.
  revert l. induction s as [|a s IH]; simpl; intros l Hl Hc.
  - apply list_elem_of_singleton in Hl as ->. by apply not_elem_of_nil in Hc.
  - case_decide as Ha.
    + apply elem_of_cons in Hl as [->|Hl]; [by apply not_elem_of_nil in Hc|].
      destruct (IH _ Hl Hc). split; [by right | done].
    + destruct (split_cons_nl sep s) as (l0 & ls & Hs). rewrite Hs in *.
      apply elem_of_cons in Hl as [->|Hl].
      * apply elem_of_cons in Hc as [->|Hc]; [split; [by left | done]|].
        destruct (IH l0 ltac:(by left) Hc). split; [by right | done].
      * destruct (IH l ltac:(by right) Hc). split; [by right | done].
Qed.

Lemma split_length sep s :
  length (split sep s) = S (length (filter (fun c => c = sep) s)).
Proof.
  induction s as [|a s IH]; simpl; [done|].
  rewrite filter_cons. case_decide; simpl; [by rewrite IH|].
  destruct (split_cons_nl sep s) as (l0 & ls & Hs). by rewrite Hs in *.
Qed.

Section store.
(** An invariant of the array that every store of the parser keeps. *)
Context (I : matrix → Prop) (chars : ascii → Prop).
Hypothesis I_set : ∀ m (y x : nat) cd m',
  I m → cd ∈ codes → chars (c1 cd) → mat_set m y x (c0 cd) = Ok m' → I m'.

Lemma foldl_Raise {A} (f : result matrix → A → result matrix) e l :
  (∀ a, f (Raise e) a = Raise e) → foldl f (Raise e) l = Raise e.
Proof. intros Hf. induction l as [|a l IH]; simpl; [done|]. by rewrite Hf. Qed.

Lemma store_char_inv y x c m m' :
  chars c → store_char y x c m = Ok m' → I m → I m'.
Proof.
  intros Hc. unfold store_char.
  assert (∀ cds, cds ⊆ codes → ∀ m,
    foldl (fun acc cd =>
             m ← acc;
             if decide (c = c1 cd) then mat_set m y x (c0 cd) else Ok m)
          (Ok m) cds = Ok m' → I m → I m') as Hfold; [|by apply Hfold].
  induction cds as [|cd cds IH]; simpl; intros Hsub m0 H Hm.
  - by injection H as <-.
  - assert (cd ∈ codes) by (apply Hsub; by left).
    assert (cds ⊆ codes) by (intros ??; apply Hsub; by right).
    case_decide; [|by eapply IH].
    destruct (mat_set m0 y x (c0 cd)) as [m1|e] eqn:Hset.
    + eapply IH; [done..|]. eapply I_set; [done..| by subst |done].
    + by rewrite foldl_Raise in H.
Qed.

Lemma store_line_inv y x line m m' :
  Forall chars line → store_line y x line m = Ok m' → I m → I m'.
Proof.
  intros Hl. revert x m. induction Hl as [|c line Hc _ IH]; simpl; intros x m H Hm.
  - by injection H as <-.
  - inv_bind H. eapply IH; [done|]. by eapply store_char_inv.
Qed.

Lemma store_lines_inv y lines m m' :
  Forall (Forall chars) lines → store_lines y lines m = Ok m' → I m → I m'.
Proof.
  intros Hl. revert y m. induction Hl as [|l lines Hc _ IH]; simpl; intros y m H Hm.
  - by injection H as <-.
  - inv_bind H. eapply IH; [done|]. by eapply store_line_inv.
Qed.
End store.

Lemma store_char_Raise y x c m e : store_char y x c m = Raise e → e = IndexError.
Proof.
  unfold store_char. generalize codes. intros cds. revert m.
  induction cds as [|cd cds IH]; simpl; intros m H; [done|].
  case_decide; [|by eapply IH].
  destruct (mat_set m y x (c0 cd)) as [m1|e'] eqn:Hset; [by eapply IH|].
  rewrite foldl_Raise in H by done. injection H as <-. by eapply mat_set_Raise.
Qed.

Lemma store_line_Raise y x line m e : store_line y x line m = Raise e → e = IndexError.
Proof.
  revert x m. induction line as [|c line IH]; simpl; intros x m H; [done|].
  destruct (store_char y x c m) eqn:Hc; simpl in H; [by eapply IH|].
  injection H as <-. by eapply store_char_Raise.
Qed.

Lemma store_lines_Raise y lines m e : store_lines y lines m = Raise e → e = IndexError.
Proof.
  revert y m. induction lines as [|l lines IH]; simpl; intros y m H; [done|].
  destruct (store_line y 0 l m) eqn:Hc; simpl in H; [by eapply IH|].
  injection H as <-. by eapply store_line_Raise.
Qed.

Lemma np_zeros_of_nat (h w : nat) : np_zeros h w = Ok (replicate h (replicate w 0)).
Proof. unfold np_zeros. rewrite decide_False by lia. by rewrite !Nat2Z.id. Qed.

Lemma string_to_array_maze_Raise maze e :
  string_to_array_maze maze = Raise e → e = IndexError.
Proof.
  unfold string_to_array_maze. rewrite np_zeros_of_nat. simpl.
  apply store_lines_Raise.
Qed.

(** The parsed array has one row per piece of [maze.split('\n')]. *)
Lemma string_to_array_maze_length maze mat :
  string_to_array_maze maze = Ok mat → length mat = length (split nl maze).
Proof.
  unfold string_to_array_maze. rewrite np_zeros_of_nat. simpl. intros H.
  eapply (store_lines_inv (fun m => length m = length (split nl maze))
            (fun _ => True)) in H; [done| |by apply Forall_forall; intros; apply Forall_forall|].
  - intros m y x cd m' Hm _ _ Hset. by rewrite (mat_set_length _ _ _ _ _ Hset).
  - by rewrite length_replicate.
Qed.

(** Every value of the parsed array is 0 or the number of a code whose
    character occurs in the text. *)
Lemma string_to_array_maze_values maze mat v :
  string_to_array_maze maze = Ok mat → v ∈ mjoin mat →
  v = 0 ∨ ∃ cd, cd ∈ codes ∧ c1 cd ∈ maze ∧ v = c0 cd.
Proof.
  unfold string_to_array_maze. rewrite np_zeros_of_nat. simpl. intros H Hv.
  eapply (store_lines_inv
            (Forall (Forall (fun v => v = 0 ∨ ∃ cd, cd ∈ codes ∧ c1 cd ∈ maze ∧ v = c0 cd)))
            (fun c => c ∈ maze)) in H.
  - apply list_elem_of_join in Hv as (row & Hv & Hrow).
    eapply Forall_forall in H; [|done]. by eapply Forall_forall in H.
  - intros m y x cd m' Hm Hcd Hc Hset. eapply mat_set_Forall; [done| |done].
    right. eauto.
  - apply Forall_forall. intros l Hl. apply Forall_forall. intros c Hc.
    by eapply split_chars.
  - apply Forall_replicate, Forall_replicate. by left.
Qed.

Lemma nonzero_first_Some mat v p :
  nonzero_first mat v = Some p →
  ∃ (iy ix : nat) row,
    p = (Z.of_nat iy, Z.of_nat ix) ∧ mat !! iy = Some row ∧ row !! ix = Some v.
Proof.
  unfold nonzero_first. intros H%head_Some_elem_of.
  apply list_elem_of_omap in H as ([y row] & Hin & Hf).
  apply elem_of_lookup_imap in Hin as (i & row' & [= -> ->] & Hrow).
  destruct (list_find (fun c => c = v) row') as [[ix c]|] eqn:Hfind; simpl in Hf; [|done].
  injection Hf as <-. apply list_find_Some in Hfind as (Hix & -> & _).
  eauto 10.
Qed.

Lemma nonzero_first_elem mat v p : nonzero_first mat v = Some p → v ∈ mjoin mat.
Proof.
  intros (iy & ix & row & _ & Hrow & Hv)%nonzero_first_Some.
  apply list_elem_of_join. exists row. split; by eapply list_elem_of_lookup_2.
Qed.

Lemma char_of_value_no_nl v : nl ∉ char_of_value v.
Proof.
  unfold char_of_value.
  destruct (find _ codes) as [cd|] eqn:Hfind; [|apply not_elem_of_nil].
  apply find_some in Hfind as [Hin _]. unfold codes in Hin. simpl in Hin.
  intros Hnl%list_elem_of_singleton.
  repeat (destruct Hin as [<-|Hin]; [discriminate Hnl|]). done.
Qed.

Lemma line_to_string_newlines row :
  filter (fun c => c = nl) (line_to_string row) = [nl].
Proof.
  unfold line_to_string. rewrite filter_app.
  assert (filter (fun c => c = nl) (row ≫= char_of_value) = []) as ->; [|done].
  induction row as [|v row IH]; [done|].
  change ((v :: row) ≫= char_of_value)
    with (char_of_value v ++ (row ≫= char_of_value)).
  rewrite filter_app, IH, app_nil_r.
  pose proof (char_of_value_no_nl v) as Hv. unfold char_of_value in *.
  destruct (find _ codes); [|done].
  rewrite filter_cons, decide_False; [done|].
  intros Heq. apply Hv. rewrite <-Heq. by left.
Qed.

(** The text of an array has one line break per row. *)
Lemma array_to_string_maze_newlines mat :
  length (filter (fun c => c = nl) (array_to_string_maze mat)) = length mat.
Proof.
  unfold array_to_string_maze. induction mat as [|row mat IH]; [done|].
  change ((row :: mat) ≫= line_to_string)
    with (line_to_string row ++ (mat ≫= line_to_string)).
  rewrite filter_app, line_to_string_newlines. simpl. by rewrite IH.
Qed.

(** Parsing the text of an array yields an array with one row more, so that
    printing it again never gives the text back. *)
Lemma roundtrip_grows mat mat' :
  string_to_array_maze (array_to_string_maze mat) = Ok mat' →
  length mat' = S (length mat) ∧
  array_to_string_maze mat' ≠ array_to_string_maze mat.
Proof.
  intros H%string_to_array_maze_length.
  rewrite split_length, array_to_string_maze_newlines in H. split; [done|].
  intros Heq%(f_equal (fun s => length (filter (fun c => c = nl) s))).
  rewrite !array_to_string_maze_newlines in Heq. lia.
Qed.

(** ** Malformed maze text *)

Lemma codes_c0_inj cd cd' : cd ∈ codes → cd' ∈ codes → c0 cd = c0 cd' → cd = cd'.
Proof.
  unfold codes. intros Hcd Hcd' Heq.
  repeat (apply elem_of_cons in Hcd as [->|Hcd]);
    try (by apply not_elem_of_nil in Hcd);
    repeat (apply elem_of_cons in Hcd' as [->|Hcd']);
    try (by apply not_elem_of_nil in Hcd');
    first [reflexivity | discriminate Heq].
Qed.

(** C5, as stated, fails: a maze text with a character outside the
    vocabulary is explored as if that character were a Path cell, and the
    End cell is found at the third pop. *)
Lemma solve_accepts_unknown_character :
  ("x"%char ∈ txt "#####
#&x!#
#####") ∧
  ("x"%char ∉ c1 <$> codes) ∧
  ∃ s, solve 3 (txt "#####
#&x!#
#####") "a*" 0 [] = Some (Ok (ExitAt s)) ∧ s_step s = 3.
Proof.
  split; [compute_done|]. split; [compute_done|].
  eexists. split; [vm_compute; reflexivity | reflexivity].
Qed.

(** C5, amended: for a maze text without a Start character or without an End
    character, [solve] raises [IndexError] in the part that precedes the
    loop, so that no cell is popped. *)
Theorem solve_without_start_or_end maze strat verb r :
  strat ∈ ["dfs"; "bfs"; "a*"]%string →
  c1 c_start ∉ maze ∨ c1 c_end ∉ maze →
  solve_init maze strat verb r = Raise IndexError ∧
  ∀ fuel, solve fuel maze strat verb r = Some (Raise IndexError).
Proof.
  intros Hstrat Hmiss.
  assert (solve_init maze strat verb r = Raise IndexError) as Hinit.
  { unfold solve_init. rewrite decide_False by (by intros []).
    destruct (string_to_array_maze maze) as [mat|e] eqn:Hparse; simpl.
    2: { by apply string_to_array_maze_Raise in Hparse as ->. }
    assert (∀ cd, cd ∈ codes → c0 cd ≠ 0 → c1 cd ∉ maze →
                  nonzero_first mat (c0 cd) = None) as Hnone.
    { intros cd Hcd H0 Hc.
      destruct (nonzero_first mat (c0 cd)) as [p|] eqn:Hp; [|done].
      apply nonzero_first_elem in Hp.
      destruct (string_to_array_maze_values _ _ _ Hparse Hp)
        as [?|(cd' & Hcd' & Hc' & Heq)]; [done|].
      by rewrite (codes_c0_inj cd cd') in Hc. }
    destruct Hmiss as [Hs|He].
    - rewrite (Hnone c_start); [done|compute_done|done|done].
    - destruct (nonzero_first mat (c0 c_start)); simpl; [|done].
      rewrite (Hnone c_end); [done|compute_done|done|done]. }
  split; [done|]. intros fuel. unfold solve. by rewrite Hinit.
Qed.

Lemma solve_without_start_or_end_witness :
  solve 5 (txt "#####
#&  #
#####") "dfs" 0 [] = Some (Raise IndexError).
Proof.
  apply solve_without_start_or_end; [compute_done|].
  right. compute_done.
Defined.


(** ** Whole columns, whole rows and slices *)

Lemma has_shape_length h w mat : has_shape h w mat → length mat = h.
Proof.
  unfold has_shape. intros H%(f_equal length).
  by rewrite length_fmap, length_replicate in H.
Qed.

Lemma has_shape_row h w mat i row :
  has_shape h w mat → mat !! i = Some row → length row = w.
Proof.
  unfold has_shape. intros H%(f_equal (.!! i)) Hrow.
  rewrite list_lookup_fmap, Hrow in H. simpl in H. symmetry in H.
  apply lookup_replicate in H as [? _]. done.
Qed.

Lemma has_shape_intro h w mat :
  length mat = h → (∀ i row, mat !! i = Some row → length row = w) →
  has_shape h w mat.
Proof.
  intros Hl Hrows. unfold has_shape. apply list_eq. intros i.
  rewrite list_lookup_fmap.
  destruct (mat !! i) as [row|] eqn:Hrow; simpl.
  - rewrite (Hrows _ _ Hrow). symmetry. apply lookup_replicate_2.
    apply lookup_lt_Some in Hrow. lia.
  - symmetry. apply lookup_replicate_None.
    apply lookup_ge_None in Hrow. lia.
Qed.

Lemma mat_set_shape h w mat y x v mat' :
  mat_set mat y x v = Ok mat' → has_shape h w mat → has_shape h w mat'.
Proof. unfold has_shape. by intros ->%mat_set_lengths. Qed.

Lemma mat_set_binary mat y x mat' :
  mat_set mat y x 1 = Ok mat' → binary mat → binary mat'.
Proof. intros H. eapply mat_set_Forall; [done|by right]. Qed.

Lemma set_col_Ok (mat : matrix) x v mat' :
  set_col mat x v = Ok mat' →
  length <$> mat' = length <$> mat ∧
  ∃ ix : nat,
    (∀ row, head mat = Some row → np_index (length row) x = Some ix) ∧
    ∀ i j, cell_at mat' (i, j) =
           (fun old => if decide (j = ix) then v else old) <$> cell_at mat (i, j).
Proof.
  unfold set_col. destruct mat as [|row0 mat]; simpl.
  { intros [= <-]. split; [done|]. exists 0%nat. split; [done|].
    intros i j. by destruct i. }
  intros H. inv_bind H. apply or_raise_Ok in Ha. injection H as <-. split.
  - simpl. rewrite length_insert. f_equal.
    rewrite <-list_fmap_compose. apply list_fmap_ext. intros ? r _. simpl.
    by rewrite length_insert.
  - exists a. split; [by intros ? [= <-]|].
    assert (∀ (r : list Z) j,
      <[a:=v]> r !! j = (fun old => if decide (j = a) then v else old) <$> r !! j)
      as Hins.
    { intros r j. rewrite list_lookup_insert.
      destruct (r !! j) as [old|] eqn:Hj; simpl.
      - apply lookup_lt_Some in Hj. destruct (decide (a = j)) as [->|?].
        + rewrite decide_True by done. by rewrite decide_True.
        + rewrite decide_False by lia. by rewrite decide_False by congruence.
      - apply lookup_ge_None in Hj. by rewrite decide_False by lia. }
    intros i j. unfold cell_at. destruct i as [|i]; simpl; [apply Hins|].
    rewrite list_lookup_fmap. destruct (mat !! i) as [r|]; simpl; [apply Hins|done].
Qed.

Lemma set_row_Ok (mat : matrix) y v mat' :
  set_row mat y v = Ok mat' →
  length <$> mat' = length <$> mat ∧
  ∃ iy : nat,
    np_index (length mat) y = Some iy ∧
    ∀ i j, cell_at mat' (i, j) =
           (fun old => if decide (i = iy) then v else old) <$> cell_at mat (i, j).
Proof.
  unfold set_row. intros H. inv_bind H. apply or_raise_Ok in Ha.
  injection H as <-. split.
  - apply list_eq. intros i. rewrite !list_lookup_fmap, list_lookup_alter.
    case_decide; [subst|done]. destruct (mat !! i); simpl; [|done].
    by rewrite length_replicate.
  - exists a. split; [done|].
    intros i j. unfold cell_at. simpl. rewrite list_lookup_alter.
    destruct (decide (a = i)) as [->|?];
      (destruct (mat !! i) as [r|] eqn:Hr; simpl; [|done]).
    + destruct (r !! j) as [old|] eqn:Hj; simpl.
      * rewrite decide_True by done.
        apply lookup_replicate_2. by apply lookup_lt_Some in Hj.
      * apply lookup_replicate_None. by apply lookup_ge_None in Hj.
    + destruct (r !! j) as [old|] eqn:Hj; simpl; [|done].
      by rewrite decide_False by congruence.
Qed.

Lemma slice_lookup {A} (lo hi : Z) (l : list A) i :
  slice lo hi l !! i =
    if decide (Z.to_nat lo + i < Z.to_nat hi)%nat
    then l !! (Z.to_nat lo + i)%nat else None.
Proof.
  unfold slice. rewrite lookup_drop, lookup_take. by repeat case_decide.
Qed.

Lemma slice_length {A} (lo hi : Z) (l : list A) :
  (Z.to_nat hi ≤ length l)%nat →
  length (slice lo hi l) = (Z.to_nat hi - Z.to_nat lo)%nat.
Proof. intros. unfold slice. rewrite length_drop, length_take. lia. Qed.

Lemma Forall_cell_at (P : Z → Prop) (mat : matrix) :
  Forall (Forall P) mat ↔ ∀ i j v, cell_at mat (i, j) = Some v → P v.
Proof.
  unfold cell_at. simpl. split.
  - intros H i j v Hv. destruct (mat !! i) as [row|] eqn:Hrow; simpl in Hv; [|done].
    eapply Forall_lookup_1 in H; [|done]. by eapply Forall_lookup_1 in H.
  - intros H. apply Forall_lookup. intros i row Hrow.
    apply Forall_lookup. intros j v Hv. apply (H i j v). by rewrite Hrow.
Qed.

Lemma cell_at_shape h w (mat : matrix) i j :
  has_shape h w mat → is_Some (cell_at mat (i, j)) ↔ (i < h)%nat ∧ (j < w)%nat.
Proof.
  intros Hs. unfold cell_at. simpl. split.
  - intros [v Hv]. destruct (mat !! i) as [row|] eqn:Hrow; simpl in Hv; [|done].
    pose proof (has_shape_row _ _ _ _ _ Hs Hrow) as <-.
    apply lookup_lt_Some in Hrow, Hv. by rewrite (has_shape_length _ _ _ Hs) in Hrow.
  - intros [Hi Hj]. rewrite <-(has_shape_length _ _ _ Hs) in Hi.
    apply lookup_lt_is_Some in Hi as [row Hrow]. rewrite Hrow. simpl.
    apply lookup_lt_is_Some. by rewrite (has_shape_row _ _ _ _ _ Hs Hrow).
Qed.

(** ** The carving loop *)

Section carving.
(** A property of the array that writing a Wall cell keeps. *)
Context (I : matrix → Prop).
Hypothesis I_set : ∀ m y x m', mat_set m y x 1 = Ok m' → I m → I m'.

Lemma mark_column_inv (x : Z) (ys : list Z)
    (acc : result (matrix * gset (Z * Z))) (res : matrix * gset (Z * Z)) :
  foldl (fun acc y =>
           '(m, unvisited) ← acc;
           m' ← mat_set m y x 1;
           Ok (m', unvisited ∪ {[(y, x)]})) acc ys = Ok res →
  ∃ a, acc = Ok a ∧ (I a.1 → I res.1).
Proof.
  revert acc. induction ys as [|y ys IH]; simpl; intros acc H; [by eauto|].
  apply IH in H as (a' & H & Ha'). inv_bind H. destruct a as [m u].
  inv_bind H. injection H as <-. eauto.
Qed.

Lemma mark_cells_inv h w mat res :
  mark_cells h w mat = Ok res → I mat → I res.1.
Proof.
  unfold mark_cells. generalize (odds w) as xs.
  assert (∀ xs (acc : result (matrix * gset (Z * Z))),
    foldl (fun acc x =>
             foldl (fun acc y =>
                      '(m, unvisited) ← acc;
                      m' ← mat_set m y x 1;
                      Ok (m', unvisited ∪ {[(y, x)]})) acc (odds h)) acc xs
    = Ok res → ∃ a, acc = Ok a ∧ (I a.1 → I res.1)) as Hxs.
  { induction xs as [|x xs IH]; simpl; intros acc H; [by eauto|].
    apply IH in H as (a' & H & Ha').
    apply mark_column_inv in H as (a & -> & Ha). eauto. }
  intros xs H. by apply Hxs in H as (a & [= <-] & Ha).
Qed.

Lemma carve_iter_inv g g' :
  carve_iter g = Ok g' → I (g_mat g) → I (g_mat g').
Proof.
  unfold carve_iter. intros H. inv_bind H. destruct a as [[current u] r].
  destruct (filter _ (neighbors2 current)) as [|n ns].
  { by injection H as <-. }
  destruct (shuffle (n :: ns) r) as [shuffled r'].
  inv_bind H. inv_bind H. injection H as <-. simpl.
  destruct (carved current a); [|by injection Ha1 as <-]. by eapply I_set.
Qed.

Lemma carve_inv fuel g g' :
  carve fuel g = Some (Ok g') → I (g_mat g) → I (g_mat g').
Proof.
  revert g. induction fuel as [|fuel IH]; simpl; intros g H;
    (case_decide; [by injection H as <-|]); [done|].
  destruct (carve_iter g) as [g1|e] eqn:Hit; [|done].
  intros Hg. eapply IH; [done|]. by eapply carve_iter_inv.
Qed.
End carving.

(** ** The forced border and the trimming *)

Lemma mat_slice_cell (y0 y1 x0 x1 : Z) (mat : matrix) i j row c :
  mat_slice y0 y1 x0 x1 mat !! i = Some row → row !! j = Some c →
  ∃ r, mat !! (Z.to_nat y0 + i)%nat = Some r ∧ row = slice x0 x1 r ∧
       (Z.to_nat y0 + i < Z.to_nat y1)%nat ∧
       (Z.to_nat x0 + j < Z.to_nat x1)%nat ∧
       r !! (Z.to_nat x0 + j)%nat = Some c.
Proof.
  unfold mat_slice. rewrite list_lookup_fmap, slice_lookup.
  case_decide; [|done]. destruct (mat !! _) as [r|] eqn:Hr; simpl; [|done].
  intros [= <-]. rewrite slice_lookup. case_decide; [|done]. eauto 10.
Qed.

Lemma force_border (hz wz : Z) (m0 m1 m2 m3 m4 : matrix) :
  has_shape (Z.to_nat hz) (Z.to_nat wz) m0 → binary m0 →
  set_col m0 1 1 = Ok m1 → set_col m1 (wz - 2) 1 = Ok m2 →
  set_row m2 1 1 = Ok m3 → set_row m3 (hz - 2) 1 = Ok m4 →
  2 ≤ hz ∧ 2 ≤ wz ∧
  has_shape (Z.to_nat (hz - 2)) (Z.to_nat (wz - 2))
            (mat_slice 1 (hz - 1) 1 (wz - 1) m4) ∧
  binary (mat_slice 1 (hz - 1) 1 (wz - 1) m4) ∧
  border_is 1 (mat_slice 1 (hz - 1) 1 (wz - 1) m4).
Proof.
  intros Hs0 Hb0 H1 H2 H3 H4.
  apply set_col_Ok in H1 as (Hl1 & ix1 & Hix1 & Hc1).
  apply set_col_Ok in H2 as (Hl2 & ix2 & Hix2 & Hc2).
  apply set_row_Ok in H3 as (Hl3 & iy1 & Hiy1 & Hc3).
  apply set_row_Ok in H4 as (Hl4 & iy2 & Hiy2 & Hc4).
  assert (has_shape (Z.to_nat hz) (Z.to_nat wz) m1) as Hs1
    by (unfold has_shape in *; congruence).
  assert (has_shape (Z.to_nat hz) (Z.to_nat wz) m2) as Hs2
    by (unfold has_shape in *; congruence).
  assert (has_shape (Z.to_nat hz) (Z.to_nat wz) m3) as Hs3
    by (unfold has_shape in *; congruence).
  assert (has_shape (Z.to_nat hz) (Z.to_nat wz) m4) as Hs4
    by (unfold has_shape in *; congruence).
  rewrite (has_shape_length _ _ _ Hs2) in Hiy1.
  rewrite (has_shape_length _ _ _ Hs3) in Hiy2.
  apply np_index_Some in Hiy1 as [Hlt1 Hiy1].
  assert (2 ≤ hz) as Hhz by lia.
  apply np_index_Some in Hiy2 as [Hlt2 Hiy2].
  assert (iy1 = 1%nat) as -> by lia.
  assert (iy2 = Z.to_nat (hz - 2)) as -> by lia.
  assert (∀ m : matrix, has_shape (Z.to_nat hz) (Z.to_nat wz) m →
            ∃ row, head m = Some row ∧ length row = Z.to_nat wz) as Hhead.
  { intros m Hm. pose proof (has_shape_length _ _ _ Hm) as Hlen.
    destruct m as [|row m]; simpl in *; [lia|]. exists row. split; [done|].
    by apply (has_shape_row _ _ _ 0%nat row Hm). }
  destruct (Hhead _ Hs0) as (row0 & Hh0 & Hw0).
  apply Hix1 in Hh0. rewrite Hw0 in Hh0. apply np_index_Some in Hh0 as [Hltx1 Hx1].
  assert (2 ≤ wz) as Hwz by lia.
  destruct (Hhead _ Hs1) as (row1 & Hh1 & Hw1).
  apply Hix2 in Hh1. rewrite Hw1 in Hh1. apply np_index_Some in Hh1 as [Hltx2 Hx2].
  assert (ix1 = 1%nat) as -> by lia.
  assert (ix2 = Z.to_nat (wz - 2)) as -> by lia.
  clear Hix1 Hix2 Hiy1 Hiy2 Hx1 Hx2 Hhead.
  assert (∀ i j v, cell_at m4 (i, j) = Some v →
            (v = 0 ∨ v = 1) ∧
            (i = 1%nat ∨ i = Z.to_nat (hz - 2) ∨ j = 1%nat ∨ j = Z.to_nat (wz - 2)
             → v = 1)) as Hcell.
  { intros i j v. rewrite Hc4, Hc3, Hc2, Hc1.
    destruct (cell_at m0 (i, j)) as [old|] eqn:Hold; simpl; [|done].
    intros [= <-]. eapply Forall_cell_at in Hb0; [|done]. simpl in Hb0.
    unfold c0, c_path, c_wall in Hb0. simpl in Hb0.
    repeat case_decide; split; auto; lia. }
  split; [done|]. split; [done|].
  assert (∀ i j row c,
            mat_slice 1 (hz - 1) 1 (wz - 1) m4 !! i = Some row → row !! j = Some c →
            cell_at m4 (S i, S j) = Some c ∧
            (i < Z.to_nat (hz - 2))%nat ∧ length row = Z.to_nat (wz - 2)) as Hsl.
  { intros i j row c Hrow Hc.
    destruct (mat_slice_cell _ _ _ _ _ _ _ _ _ Hrow Hc) as (r & Hr & -> & Hi & Hj & Hrc).
    change (Z.to_nat 1) with 1%nat in *. simpl in Hr, Hrc.
    split; [unfold cell_at; simpl; by rewrite Hr|]. split; [lia|].
    rewrite slice_length; [lia|].
    rewrite (has_shape_row _ _ _ _ _ Hs4 Hr). lia. }
  assert (length (mat_slice 1 (hz - 1) 1 (wz - 1) m4) = Z.to_nat (hz - 2)) as Hlen.
  { unfold mat_slice. rewrite length_fmap, slice_length;
      rewrite ?(has_shape_length _ _ _ Hs4); lia. }
  split; [|split].
  - apply has_shape_intro; [done|]. intros i row Hrow.
    destruct (decide (0 < Z.to_nat (wz - 2))%nat) as [Hpos|Hzero].
    + assert (is_Some (row !! 0%nat)) as [c Hc].
      { unfold mat_slice in Hrow. rewrite list_lookup_fmap, slice_lookup in Hrow.
        case_decide; [|done].
        destruct (m4 !! _) as [r|] eqn:Hr; simpl in Hrow; [|done].
        injection Hrow as <-. apply lookup_lt_is_Some. rewrite slice_length; [lia|].
        rewrite (has_shape_row _ _ _ _ _ Hs4 Hr). lia. }
      by destruct (Hsl _ _ _ _ Hrow Hc) as (_ & _ & ?).
    + unfold mat_slice in Hrow. rewrite list_lookup_fmap, slice_lookup in Hrow.
      case_decide; [|done].
      destruct (m4 !! _) as [r|] eqn:Hr; simpl in Hrow; [|done].
      injection Hrow as <-. rewrite slice_length; [lia|].
      rewrite (has_shape_row _ _ _ _ _ Hs4 Hr). lia.
  - apply Forall_cell_at. intros i j v Hv. unfold cell_at in Hv. simpl in Hv.
    destruct (mat_slice _ _ _ _ m4 !! i) as [row|] eqn:Hrow; simpl in Hv; [|done].
    destruct (Hsl _ _ _ _ Hrow Hv) as (Hc & _ & _).
    apply Hcell in Hc as [Hc _]. exact Hc.
  - intros i j row c Hrow Hc Hb.
    destruct (Hsl _ _ _ _ Hrow Hc) as (Hcm & Hi & Hw).
    apply Hcell in Hcm as [_ Hcm]. apply Hcm. rewrite Hlen, Hw in Hb. lia.
Qed.


Lemma make_grid_Ok w h r mat r' :
  make_grid w h r = Some (Ok (mat, r')) →
  1 ≤ w ∧ 1 ≤ h ∧
  has_shape (Z.to_nat (h - 1)) (Z.to_nat (w - 1)) mat ∧
  binary mat ∧ border_is 1 mat.
Proof.
  unfold make_grid.
  destruct (np_zeros (h + 1) (w + 1) ≫= mark_cells (h + 1) (w + 1))
    as [[m0 u]|e] eqn:Hmark; [|done].
  destruct (carve (size u) (Carver u [] m0 r)) as [[g|e]|] eqn:Hcarve;
    simpl; [|done..].
  intros [= H]. inv_bind H. inv_bind H. inv_bind H. inv_bind H.
  injection H as <- <-.
  inv_bind Hmark. unfold np_zeros in Ha3. case_decide; [done|].
  injection Ha3 as <-.
  set (I := fun m : matrix =>
              has_shape (Z.to_nat (h + 1)) (Z.to_nat (w + 1)) m ∧ binary m).
  assert (∀ m y x m', mat_set m y x 1 = Ok m' → I m → I m') as I_set.
  { intros m y x m' Hset [Hs Hb]. split;
      [by eapply mat_set_shape | by eapply mat_set_binary]. }
  assert (I (g_mat g)) as [Hs Hb].
  { eapply (carve_inv I I_set) in Hcarve; [done|]. simpl.
    eapply (mark_cells_inv I I_set) in Hmark; [done|]. split.
    - unfold has_shape. by rewrite fmap_replicate, length_replicate.
    - apply Forall_replicate, Forall_replicate. by left. }
  destruct (force_border _ _ _ _ _ _ _ Hs Hb Ha Ha0 Ha1 Ha2)
    as (Hh & Hw & Hshape & Hbin & Hborder).
  replace (h + 1 - 2) with (h - 1) in Hshape by lia.
  replace (w + 1 - 2) with (w - 1) in Hshape by lia.
  split_and!; [lia | lia | done..].
Qed.

(** ** The text of a generated array *)

Lemma char_of_value_binary v :
  v = c0 c_path ∨ v = c0 c_wall → char_of_value v = [glyph v].
Proof. by intros [-> | ->]. Qed.

Lemma array_to_string_maze_binary mat :
  binary mat → array_to_string_maze mat = unlines (glyph_rows mat).
Proof.
  unfold array_to_string_maze, unlines, glyph_rows, binary.
  induction 1 as [|row mat Hrow _ IH]; [done|].
  change ((row :: mat) ≫= line_to_string)
    with (line_to_string row ++ (mat ≫= line_to_string)).
  rewrite IH, fmap_cons.
  change (((glyph <$> row) :: ((fun row : list Z => glyph <$> row) <$> mat))
            ≫= (fun row => row ++ [nl]))
    with (((glyph <$> row) ++ [nl]) ++
          (((fun row : list Z => glyph <$> row) <$> mat) ≫= (fun row => row ++ [nl]))).
  f_equal. unfold line_to_string. f_equal.
  induction Hrow as [|v row Hv _ IHrow]; [done|].
  change ((v :: row) ≫= char_of_value)
    with (char_of_value v ++ (row ≫= char_of_value)).
  by rewrite IHrow, char_of_value_binary.
Qed.

Lemma glyph_no_nl v : glyph v ≠ nl.
Proof. unfold glyph. by case_decide. Qed.

Lemma glyph_rows_border mat :
  border_is 1 mat → border_is (c1 c_wall) (glyph_rows mat).
Proof.
  unfold glyph_rows. intros Hb i j row c Hrow Hc Hij.
  rewrite list_lookup_fmap in Hrow.
  destruct (mat !! i) as [r|] eqn:Hr; simpl in Hrow; [|done].
  injection Hrow as <-. rewrite list_lookup_fmap in Hc.
  destruct (r !! j) as [v|] eqn:Hv; simpl in Hc; [|done].
  injection Hc as <-. rewrite !length_fmap in Hij.
  by rewrite (Hb _ _ _ _ Hr Hv Hij).
Qed.

(** ** Placing Start and End *)

Lemma same_kind_refl a : same_kind a a.
Proof. by split. Qed.

Lemma same_kind_trans a b c : same_kind a b → same_kind b c → same_kind a c.
Proof. unfold same_kind. intros [H1 H2] [H3 H4]. split; by etrans. Qed.

Lemma unlines_cons row rows : unlines (row :: rows) = row ++ nl :: unlines rows.
Proof.
  unfold unlines.
  change ((row :: rows) ≫= (fun row => row ++ [nl]))
    with ((row ++ [nl]) ++ (rows ≫= (fun row => row ++ [nl]))).
  by rewrite <-app_assoc.
Qed.

(** A text that agrees in kind with a text of lines has the same lines, up
    to kind. *)
Lemma unlines_same_kind rows t' :
  Forall2 same_kind (unlines rows) t' →
  ∃ rows', t' = unlines rows' ∧ Forall2 (Forall2 same_kind) rows rows'.
Proof.
  revert t'. induction rows as [|row rows IH]; intros t' H.
  - apply Forall2_nil_inv_l in H as ->. by exists [].
  - rewrite unlines_cons in H.
    apply Forall2_app_inv_l in H as (row' & t2 & Hrow & H & ->).
    apply Forall2_cons_inv_l in H as (c & t3 & [_ Hc] & H & ->).
    assert (c = nl) as -> by (by apply Hc).
    apply IH in H as (rows' & -> & Hrows).
    exists (row' :: rows'). rewrite unlines_cons. split; [done|]. by constructor.
Qed.

Lemma same_kind_rows_border rows rows' :
  Forall2 (Forall2 same_kind) rows rows' →
  border_is (c1 c_wall) rows → border_is (c1 c_wall) rows'.
Proof.
  intros HF Hb i j row' c' Hrow' Hc' Hij.
  destruct (Forall2_lookup_r _ _ _ _ _ HF Hrow') as (row & Hrow & Hrr).
  destruct (Forall2_lookup_r _ _ _ _ _ Hrr Hc') as (c & Hc & [Hk _]).
  apply Hk. apply (Hb i j row c Hrow Hc).
  by rewrite (Forall2_length _ _ _ HF), (Forall2_length _ _ _ Hrr).
Qed.

Lemma same_kind_rows_shape (h w : nat) rows rows' :
  Forall2 (Forall2 same_kind) rows rows' →
  length rows = h → Forall (fun row => length row = w ∧ nl ∉ row) rows →
  length rows' = h ∧ Forall (fun row => length row = w ∧ nl ∉ row) rows'.
Proof.
  intros HF Hl Hrows. split; [by rewrite <-(Forall2_length _ _ _ HF)|].
  apply Forall_lookup. intros i row' Hrow'.
  destruct (Forall2_lookup_r _ _ _ _ _ HF Hrow') as (row & Hrow & Hrr).
  eapply Forall_lookup_1 in Hrows as [Hw Hnl]; [|done].
  split; [by rewrite <-(Forall2_length _ _ _ Hrr)|].
  intros (j & Hj)%list_elem_of_lookup_1.
  destruct (Forall2_lookup_r _ _ _ _ _ Hrr Hj) as (c & Hc & [_ Hk]).
  apply Hnl. apply list_elem_of_lookup. exists j. rewrite Hc. f_equal. by apply Hk.
Qed.

Lemma spaces_of_lookup maze (spaces := spaces_of maze) i pos :
  spaces !! i = Some pos → maze !! pos = Some (c1 c_path).
Proof.
  unfold spaces, spaces_of. intros H%list_elem_of_lookup_2.
  apply list_elem_of_fmap in H as ([k c] & -> & H).
  apply list_elem_of_filter in H as [Hc H]. simpl in Hc. subst c.
  by apply elem_of_lookup_imap in H as (k' & c' & [= -> ->] & H).
Qed.

(** Overwriting a position that held a space in [maze0] with a character
    that is neither the Wall character nor a line break keeps the kinds. *)
Lemma stamp_same_kind maze0 maze pos new :
  Forall2 same_kind maze0 maze →
  maze0 !! pos = Some (c1 c_path) →
  new ≠ c1 c_wall → new ≠ nl →
  Forall2 same_kind maze0 (<[pos := new]> maze).
Proof.
  intros HF Hpos Hw Hn. rewrite <-(list_insert_id maze0 pos (c1 c_path)) by done.
  apply Forall2_insert; [done|]. by split.
Qed.

Lemma place_same_kind start end_ maze r maze' :
  place start end_ maze r = Ok maze' → Forall2 same_kind maze maze'.
Proof.
  unfold place. intros H. inv_bind H. destruct a as [[maze1 spaces] r1].
  assert (Forall2 same_kind maze maze1 ∧
          ∀ i pos, spaces !! i = Some pos → maze !! pos = Some (c1 c_path))
    as [H1 Hsp].
  { destruct start.
    - inv_bind Ha. destruct a as [i r']. inv_bind Ha. injection Ha as <- <- <-.
      apply or_raise_Ok in Ha1. split.
      + apply stamp_same_kind; [|by eapply spaces_of_lookup|done..].
        apply Forall2_same_length_lookup_2; [done|].
        intros k ca cb Hca Hcb. rewrite Hca in Hcb. injection Hcb as <-.
        apply same_kind_refl.
      + intros k pos Hk. apply list_elem_of_lookup_2, list_elem_of_delete_inv in Hk.
        apply list_elem_of_lookup_1 in Hk as [k' Hk'].
        by eapply spaces_of_lookup.
    - injection Ha as <- <- <-. split; [|by apply spaces_of_lookup].
      apply Forall2_same_length_lookup_2; [done|].
      intros k ca cb Hca Hcb. rewrite Hca in Hcb. injection Hcb as <-.
      apply same_kind_refl. }
  destruct end_.
  - inv_bind H. destruct a as [j r']. inv_bind H. injection H as <-.
    apply or_raise_Ok in Ha1. apply stamp_same_kind; [done|by eapply Hsp|done..].
  - by injection H as <-.
Qed.

(** ** The shape and the border of a generated maze *)

Lemma make_maze_Ok w h start end_ r maze :
  make_maze w h start end_ r = Some (Ok maze) →
  ∃ mat r', make_grid w h r = Some (Ok (mat, r')) ∧
            place start end_ (array_to_string_maze mat) r' = Ok maze.
Proof.
  unfold make_maze. destruct (make_grid w h r) as [[[mat r']|e]|]; simpl; [|done..].
  intros [= H]. eauto.
Qed.

Lemma glyph_rows_shape (h w : nat) mat :
  has_shape h w mat →
  length (glyph_rows mat) = h ∧
  Forall (fun row => length row = w ∧ nl ∉ row) (glyph_rows mat).
Proof.
  intros Hs. unfold glyph_rows. split.
  - by rewrite length_fmap, (has_shape_length _ _ _ Hs).
  - apply Forall_lookup. intros i row Hrow. rewrite list_lookup_fmap in Hrow.
    destruct (mat !! i) as [r|] eqn:Hr; simpl in Hrow; [|done].
    injection Hrow as <-. split.
    + by rewrite length_fmap, (has_shape_row _ _ _ _ _ Hs Hr).
    + intros (v & Hv & _)%list_elem_of_fmap. by eapply glyph_no_nl.
Qed.

(** The lines of a returned maze: [h - 1] lines of [w - 1] characters, with
    the Wall character all along the border. *)
Lemma make_maze_rows w h start end_ r maze :
  make_maze w h start end_ r = Some (Ok maze) →
  1 ≤ w ∧ 1 ≤ h ∧
  ∃ rows,
    maze = unlines rows ∧
    length rows = Z.to_nat (h - 1) ∧
    Forall (fun row => length row = Z.to_nat (w - 1) ∧ nl ∉ row) rows ∧
    border_is (c1 c_wall) rows.
Proof.
  intros (mat & r' & Hgrid & Hplace)%make_maze_Ok.
  apply make_grid_Ok in Hgrid as (Hw & Hh & Hshape & Hbin & Hborder).
  split; [done|]. split; [done|].
  apply place_same_kind in Hplace.
  rewrite array_to_string_maze_binary in Hplace by done.
  apply unlines_same_kind in Hplace as (rows & -> & Hrows).
  destruct (glyph_rows_shape _ _ _ Hshape) as [Hl Hr].
  destruct (same_kind_rows_shape _ _ _ _ Hrows Hl Hr) as [Hl' Hr'].
  exists rows. split_and!; [done..|].
  eapply same_kind_rows_border; [done|]. by apply glyph_rows_border.
Qed.


(** C8: in every maze that [make_maze] returns, with or without Start and
    End, the text is a sequence of lines whose first and last line and whose
    first and last column hold the Wall character only. *)
Theorem generated_border_is_wall w h start end_ r maze :
  make_maze w h start end_ r = Some (Ok maze) →
  ∃ rows,
    maze = unlines rows ∧ Forall (fun row => nl ∉ row) rows ∧
    border_is (c1 c_wall) rows.
Proof.
  intros (_ & _ & rows & -> & _ & Hrows & Hb)%make_maze_rows.
  exists rows. split_and!; [done| |done].
  eapply Forall_impl; [exact Hrows|]. by intros row [_ ?].
Qed.

Lemma generated_border_is_wall_witness :
  make_maze 6 6 true true [1; 2; 3; 4; 5; 6; 7; 8; 9; 10; 11; 12]%nat
    = Some (Ok (unlines [txt "#####"; txt "#&! #"; txt "# # #"; txt "# # #";
                         txt "#####"])) ∧
  ∃ rows,
    unlines [txt "#####"; txt "#&! #"; txt "# # #"; txt "# # #"; txt "#####"]
      = unlines rows ∧
    Forall (fun row => nl ∉ row) rows ∧ border_is (c1 c_wall) rows.
Proof.
  split; [vm_compute; reflexivity|].
  apply (generated_border_is_wall 6 6 true true
           [1; 2; 3; 4; 5; 6; 7; 8; 9; 10; 11; 12]%nat).
  vm_compute. reflexivity.
Defined.

(** C2, what the code does: the array is created with [h + 1] rows and
    [w + 1] columns, and the maze returned has [h - 1] lines of [w - 1]
    characters, not [h] lines of [w]. *)
Theorem generated_size_is_one_less w h start end_ r maze :
  make_maze w h start end_ r = Some (Ok maze) →
  ∃ rows,
    maze = unlines rows ∧
    length rows = Z.to_nat (h - 1) ∧
    Forall (fun row => length row = Z.to_nat (w - 1) ∧ nl ∉ row) rows.
Proof.
  intros (_ & _ & rows & -> & Hl & Hrows & _)%make_maze_rows. by exists rows.
Qed.

Lemma generated_size_is_one_less_witness :
  make_maze 4 4 false false [] = Some (Ok (txt "###
# #
###
")) ∧
  ∃ rows,
    txt "###
# #
###
" = unlines rows ∧
    length rows = 3%nat ∧
    Forall (fun row => length row = 3%nat ∧ nl ∉ row) rows.
Proof.
  split; [vm_compute; reflexivity|].
  apply (generated_size_is_one_less 4 4 false false []).
  vm_compute. reflexivity.
Defined.

(** C4, what the code does: for the array that [make_maze(4, 4)] prints,
    parsing the text gives an array with a fourth row of Path cells, and
    printing that array gives the text followed by a line of three spaces. *)
Theorem roundtrip_of_generated_text :
  make_grid 4 4 [] = Some (Ok ([[1; 1; 1]; [1; 0; 1]; [1; 1; 1]], [])) ∧
  array_to_string_maze [[1; 1; 1]; [1; 0; 1]; [1; 1; 1]] = txt "###
# #
###
" ∧
  string_to_array_maze (txt "###
# #
###
") = Ok [[1; 1; 1]; [1; 0; 1]; [1; 1; 1]; [0; 0; 0]] ∧
  array_to_string_maze [[1; 1; 1]; [1; 0; 1]; [1; 1; 1]; [0; 0; 0]] = txt "###
# #
###
   
".
Proof. split_and!; vm_compute; reflexivity. Qed.

(** C1, what the code does: [make_maze(6, 4)] can return a maze whose two
    Path cells are separated by a Wall cell, so that no path joins them. *)
Theorem generated_maze_not_connected :
  make_maze 6 4 false false [1; 2; 1]%nat
    = Some (Ok (unlines [txt "#####"; txt "# # #"; txt "#####"])) ∧
  is_path [txt "#####"; txt "# # #"; txt "#####"] (1, 1)%nat ∧
  is_path [txt "#####"; txt "# # #"; txt "#####"] (1, 3)%nat ∧
  ¬ connected [txt "#####"; txt "# # #"; txt "#####"] (1, 1)%nat (1, 3)%nat ∧
  ¬ perfect [txt "#####"; txt "# # #"; txt "#####"].
Proof.
  assert (¬ connected [txt "#####"; txt "# # #"; txt "#####"] (1, 1)%nat (1, 3)%nat)
    as Hnot.
  { intros H. apply rtc_inv in H as [[=]|([y1 y2] & (Hadj & _ & Hy) & _)].
    unfold adjacent in Hadj. simpl in Hadj.
    destruct Hadj as [[<- [Hy2 | ->]] | [<- [Hy1 | ->]]];
      try (injection Hy2 as <-); try (injection Hy1 as <-);
      vm_compute in Hy; discriminate Hy. }
  split_and!; [vm_compute; reflexivity | reflexivity | reflexivity | done |].
  intros Hperfect. apply Hnot. by apply Hperfect.
Qed.

(** The other half of C1 fails too: [make_maze(6, 6)] can return a maze
    whose Path cells form a ring, with two simple paths between opposite
    corners. *)
Lemma generated_maze_with_cycle :
  make_maze 6 6 false false [6; 0; 0; 6; 0; 0; 0; 0; 0; 1; 0; 0]%nat
    = Some (Ok (unlines [txt "#####"; txt "#   #"; txt "# # #"; txt "#   #";
                         txt "#####"])) ∧
  simple_path [txt "#####"; txt "#   #"; txt "# # #"; txt "#   #"; txt "#####"]
    (1, 1)%nat (3, 3)%nat [(1, 1); (1, 2); (1, 3); (2, 3); (3, 3)]%nat ∧
  simple_path [txt "#####"; txt "#   #"; txt "# # #"; txt "#   #"; txt "#####"]
    (1, 1)%nat (3, 3)%nat [(1, 1); (2, 1); (3, 1); (3, 2); (3, 3)]%nat.
Proof.
  split; [vm_compute; reflexivity|].
  split; (split_and!;
    [reflexivity | reflexivity | compute_done
    | repeat constructor | simpl; unfold adjacent; simpl; intuition lia]).
Qed.


(** ** shuffle *)

Lemma insert_swap_perm {A} (l : list A) j b x :
  l !! j = Some b → b :: <[j := x]> l ≡ₚ x :: l.
Proof.
  revert j. induction l as [|c l IH]; intros [|j] Hj; simplify_eq/=.
  - apply Permutation_swap.
  - rewrite Permutation_swap, (IH _ Hj). apply Permutation_swap.
Qed.

Lemma swap_perm {A} (i j : nat) (l : list A) : swap i j l ≡ₚ l.
Proof.
  unfold swap. revert i j. induction l as [|x l IH]; intros i j.
  { by destruct i, j. }
  destruct i as [|i], j as [|j]; simpl.
  - done.
  - destruct (l !! j) as [b|] eqn:Hj; [|done]. by apply insert_swap_perm.
  - destruct (l !! i) as [a|] eqn:Hi; [|done]. by apply insert_swap_perm.
  - specialize (IH i j). destruct (l !! i), (l !! j); try done.
    by constructor.
Qed.

Lemma shuffle_from_perm {A} (i : nat) (l : list A) r :
  (shuffle_from i l r).1 ≡ₚ l.
Proof.
  revert l r. induction i as [|i IH]; intros l r; simpl; [done|].
  destruct (randbelow (S (S i)) r) as [j r']. rewrite IH. apply swap_perm.
Qed.

(** [shuffle] returns a permutation of its argument. *)
Lemma shuffle_perm {A} (l : list A) r : (shuffle l r).1 ≡ₚ l.
Proof. apply shuffle_from_perm. Qed.

(** ** Indices inside the array *)

Lemma locate_in_grid (h w : nat) mat p :
  has_shape h w mat → in_grid h w p →
  locate mat p.1 p.2 = Some (Z.to_nat p.1, Z.to_nat p.2).
Proof.
  intros Hs [Hy Hx]. unfold locate.
  rewrite (has_shape_length _ _ _ Hs), np_index_in_range by done. simpl.
  destruct (lookup_lt_is_Some_2 mat (Z.to_nat p.1)) as [row Hrow].
  { rewrite (has_shape_length _ _ _ Hs). lia. }
  rewrite Hrow. simpl. rewrite (has_shape_row _ _ _ _ _ Hs Hrow).
  by rewrite np_index_in_range.
Qed.

Lemma cellZ_in_grid (h w : nat) mat p :
  has_shape h w mat → in_grid h w p → is_Some (cellZ mat p).
Proof.
  intros Hs [Hy Hx]. apply (cell_at_shape _ _ _ _ _ Hs). lia.
Qed.

Lemma mat_get_in_grid (h w : nat) mat p :
  has_shape h w mat → in_grid h w p →
  ∃ v, mat_get mat p.1 p.2 = Ok v ∧ cellZ mat p = Some v.
Proof.
  intros Hs Hp. destruct (cellZ_in_grid _ _ _ _ Hs Hp) as [v Hv].
  exists v. split; [|done]. unfold mat_get.
  rewrite (locate_in_grid _ _ _ _ Hs Hp). simpl. unfold cellZ in Hv. by rewrite Hv.
Qed.

Lemma mat_set_in_grid (h w : nat) mat p v :
  has_shape h w mat → in_grid h w p →
  mat_set mat p.1 p.2 v = Ok (put_at mat (Z.to_nat p.1, Z.to_nat p.2) v).
Proof.
  intros Hs Hp. unfold mat_set. by rewrite (locate_in_grid _ _ _ _ Hs Hp).
Qed.

Lemma put_at_shape (h w : nat) mat p v :
  has_shape h w mat → has_shape h w (put_at mat p v).
Proof. unfold has_shape. by rewrite put_at_lengths. Qed.

Lemma cellZ_put_at (h w : nat) mat p q v :
  has_shape h w mat → in_grid h w p → in_grid h w q →
  cellZ (put_at mat (Z.to_nat p.1, Z.to_nat p.2) v) q =
    if decide (q = p) then Some v else cellZ mat q.
Proof.
  intros Hs Hp Hq. unfold cellZ.
  rewrite cell_at_put_at by (by eapply cellZ_in_grid).
  destruct p as [py px], q as [qy qx], Hp as [??], Hq as [??]; simpl in *.
  destruct (decide ((qy, qx) = (py, px))) as [[= -> ->]|Hne].
  - by rewrite decide_True.
  - rewrite decide_False; [done|]. intros [= ??]. apply Hne. f_equal; lia.
Qed.

Lemma border_is_cell_at (h w : nat) (mat : matrix) (wall : Z) :
  has_shape h w mat →
  border_is wall mat ↔
  ∀ i j c, cell_at mat (i, j) = Some c →
           i = 0%nat ∨ S i = h ∨ j = 0%nat ∨ S j = w → c = wall.
Proof.
  intros Hs. unfold border_is, cell_at. simpl. split.
  - intros Hb i j c Hc Hij.
    destruct (mat !! i) as [row|] eqn:Hrow; simpl in Hc; [|done].
    apply (Hb i j row c Hrow Hc).
    by rewrite (has_shape_length _ _ _ Hs), (has_shape_row _ _ _ _ _ Hs Hrow).
  - intros Hb i j row c Hrow Hc Hij. apply (Hb i j c).
    + by rewrite Hrow.
    + by rewrite (has_shape_length _ _ _ Hs), (has_shape_row _ _ _ _ _ Hs Hrow) in Hij.
Qed.

(** A cell inside the array that is not a Wall cell is off the border. *)
Lemma not_wall_interior (h w : nat) mat p :
  has_shape h w mat → border_is 1 mat → in_grid h w p →
  cellZ mat p ≠ Some 1 →
  1 ≤ p.1 ∧ p.1 + 1 < h ∧ 1 ≤ p.2 ∧ p.2 + 1 < w.
Proof.
  intros Hs Hb Hp Hc. destruct (cellZ_in_grid _ _ _ _ Hs Hp) as [v Hv].
  rewrite (border_is_cell_at _ _ _ _ Hs) in Hb. destruct Hp as [??].
  destruct (decide (1 ≤ p.1 ∧ p.1 + 1 < h ∧ 1 ≤ p.2 ∧ p.2 + 1 < w)); [done|].
  exfalso. apply Hc. rewrite Hv. f_equal.
  apply (Hb _ _ _ Hv). lia.
Qed.

(** Writing a value other than Wall into a cell off the border keeps the
    shape and the border, and leaves every cell that is not Wall so. *)
Lemma put_at_interior (h w : nat) mat p v :
  has_shape h w mat → border_is 1 mat → in_grid h w p →
  cellZ mat p ≠ Some 1 → v ≠ 1 →
  border_is 1 (put_at mat (Z.to_nat p.1, Z.to_nat p.2) v) ∧
  ∀ q, in_grid h w q → cellZ mat q ≠ Some 1 →
       cellZ (put_at mat (Z.to_nat p.1, Z.to_nat p.2) v) q ≠ Some 1.
Proof.
  intros Hs Hb Hp Hc Hv.
  pose proof (not_wall_interior _ _ _ _ Hs Hb Hp Hc) as Hint. split.
  - apply (border_is_cell_at h w); [by apply put_at_shape|].
    intros i j c. rewrite cell_at_put_at by (by eapply cellZ_in_grid).
    case_decide as Heq.
    + injection Heq as -> ->. intros _ ?. lia.
    + by apply (border_is_cell_at h w mat 1 Hs).
  - intros q Hq Hcq. rewrite (cellZ_put_at h w) by done.
    case_decide; congruence.
Qed.


(** ** The exploration loop on an array with a Wall border *)

Lemma write_not_wall (h w : nat) mat p v :
  has_shape h w mat → border_is 1 mat → in_grid h w p →
  cellZ mat p ≠ Some 1 → v ≠ 1 →
  ∃ mat', mat_set mat p.1 p.2 v = Ok mat' ∧
          has_shape h w mat' ∧ border_is 1 mat' ∧
          (∀ q, in_grid h w q → cellZ mat q ≠ Some 1 → cellZ mat' q ≠ Some 1) ∧
          cellZ mat' p = Some v.
Proof.
  intros Hs Hb Hp Hc Hv. eexists. split; [by eapply mat_set_in_grid|].
  destruct (put_at_interior _ _ _ _ v Hs Hb Hp Hc Hv) as [Hb' Hq].
  split_and!; [by apply put_at_shape | done | done |].
  rewrite (cellZ_put_at h w) by done. by rewrite decide_True.
Qed.

Lemma prospect_in_grid (h w : nat) mat ps :
  has_shape h w mat → Forall (in_grid h w) ps →
  ∃ next, prospect mat ps = Ok next ∧
          ∀ p, p ∈ next → in_grid h w p ∧ cellZ mat p ≠ Some 1.
Proof.
  intros Hs. induction 1 as [|p ps Hp _ (next & IH & Hnext)]; simpl.
  { exists []. split; [done|]. by intros p ?%not_elem_of_nil. }
  destruct (mat_get_in_grid _ _ _ _ Hs Hp) as (v & -> & Hv). simpl.
  rewrite IH. simpl. eexists. split; [done|].
  intros q Hq. destruct (admissible v) eqn:Hadm; [|by apply Hnext].
  apply elem_of_cons in Hq as [->|Hq]; [|by apply Hnext].
  split; [done|]. rewrite Hv. intros [= ->]. done.
Qed.

Lemma pop_elem strat stack cur rest :
  pop strat stack = Some (cur, rest) →
  cur ∈ stack ∧ ∀ p, p ∈ rest → p ∈ stack.
Proof.
  unfold pop. case_decide.
  - destruct stack as [|c stack]; [done|]. intros [= -> ->].
    split; [by left | by right].
  - destruct (last stack) as [c|] eqn:Hl; simpl; [|done].
    intros [= <- <-]. apply last_Some in Hl as [l' ->].
    rewrite removelast_last. split; [|intros p ?]; apply elem_of_app; auto.
    right. by left.
Qed.

(** An iteration from a state that satisfies the invariant reads and writes
    inside the array only, does not raise, and ends in a state that
    satisfies the invariant. *)
Lemma solve_body_safe (h w : nat) cfg s cur rest :
  solver_inv h w cfg s →
  cur ∈ s_stack s → (∀ p, p ∈ rest → p ∈ s_stack s) →
  Forall (in_grid h w) (cur :: neighbors4 cur.1 cur.2) ∧
  ∃ f, solve_body cfg s cur rest = Ok f ∧ solver_inv h w cfg (flow_state f).
Proof.
  intros (Hs & Hb & Hinv) Hcur Hrest.
  destruct (Hinv cur) as [Hg Hc]; [by right|].
  pose proof (not_wall_interior _ _ _ _ Hs Hb Hg Hc) as Hint.
  destruct cur as [y x]. cbn [fst snd] in Hint.
  assert (Forall (in_grid h w) (neighbors4 y x)) as Hngb.
  { destruct Hg as [??]. cbn [fst snd] in *.
    repeat constructor; cbn [fst snd]; lia. }
  split; [by constructor|].
  unfold solve_body. cbn beta iota zeta.
  destruct (write_not_wall h w _ (y, x) (c0 c_current) Hs Hb Hg Hc)
    as (m1 & Hset1 & Hs1 & Hb1 & Hk1 & Hv1); [done|].
  cbn [fst snd] in Hset1. rewrite Hset1. bind_step.
  assert (cellZ m1 (y, x) ≠ Some 1) as Hc1 by (by rewrite Hv1).
  destruct (decide ((y, x) = end_ cfg)) as [He|He].
  - destruct (Hinv (start cfg)) as [Hsg Hsc]; [by left|].
    destruct (write_not_wall h w m1 (start cfg) (c0 c_start) Hs1 Hb1 Hsg)
      as (m2 & Hset2 & Hs2 & Hb2 & Hk2 & Hv2); [by apply Hk1|done|].
    rewrite Hset2. bind_step.
    destruct (write_not_wall h w m2 (y, x) (c0 c_end) Hs2 Hb2 Hg)
      as (m3 & Hset3 & Hs3 & Hb3 & Hk3 & Hv3); [by apply Hk2|done|].
    cbn [fst snd] in Hset3. rewrite Hset3. bind_step.
    eexists. split; [done|]. split_and!; [done..|].
    intros p Hp. destruct (Hinv p) as [Hpg Hpc].
    { destruct Hp; [by left | right; by apply Hrest]. }
    split; [done|]. by apply Hk3, Hk2, Hk1.
  - destruct (write_not_wall h w m1 (y, x) (c0 c_visited) Hs1 Hb1 Hg Hc1)
      as (m2 & Hset2 & Hs2 & Hb2 & Hk2 & Hv2); [done|].
    cbn [fst snd] in Hset2. rewrite Hset2. bind_step.
    assert (cellZ m2 (y, x) ≠ Some 1) as Hc2 by (by rewrite Hv2).
    destruct (prospect_in_grid h w m2 (neighbors4 y x) Hs2 Hngb)
      as (next & Hpr & Hnext).
    rewrite Hpr. bind_step.
    destruct (if decide (strategy cfg = "a*"%string) then _ else _)
      as [next' r'] eqn:Hnext'.
    assert (next' ≡ₚ next) as Hperm.
    { case_decide.
      - injection Hnext' as <- <-. apply sorted_perm.
      - pose proof (shuffle_perm next (s_rng s)) as Hp. by rewrite Hnext' in Hp. }
    assert (∃ m3, (if decide (verbosity cfg >= 3)
                   then mat_set m2 y x (c0 c_current) else Ok m2) = Ok m3 ∧
                  has_shape h w m3 ∧ border_is 1 m3 ∧
                  ∀ q, in_grid h w q → cellZ m2 q ≠ Some 1 → cellZ m3 q ≠ Some 1)
      as (m3 & Hset3 & Hs3 & Hb3 & Hk3).
    { destruct (decide (verbosity cfg >= 3)); [|by exists m2].
      destruct (write_not_wall h w m2 (y, x) (c0 c_current) Hs2 Hb2 Hg Hc2)
        as (m3 & ? & ? & ? & ? & _); [done|]. by exists m3. }
    rewrite Hset3. bind_step.
    eexists. split; [done|]. split_and!; [done..|].
    intros p [->|Hp].
    + destruct (Hinv (start cfg)) as [Hsg Hsc]; [by left|].
      split; [done|]. by apply Hk3, Hk2, Hk1.
    + cbn [flow_state s_stack] in Hp. apply elem_of_app in Hp as [Hp|Hp].
      * destruct (Hinv p) as [Hpg Hpc]; [right; by apply Hrest|].
        split; [done|]. by apply Hk3, Hk2, Hk1.
      * rewrite Hperm in Hp. destruct (Hnext _ Hp) as [Hpg Hpc].
        split; [done|]. by apply Hk3.
Qed.

Lemma solve_init_Ok maze strat verb r cfg s0 :
  solve_init maze strat verb r = Ok (cfg, s0) →
  strategy cfg = strat ∧ verbosity cfg = verb ∧
  string_to_array_maze maze = Ok (s_mat s0) ∧
  nonzero_first (s_mat s0) (c0 c_start) = Some (start cfg) ∧
  nonzero_first (s_mat s0) (c0 c_end) = Some (end_ cfg) ∧
  s_stack s0 = [start cfg].
Proof.
  unfold solve_init. intros H. case_decide; [done|].
  inv_bind H. inv_bind H. inv_bind H. injection H as <- <-. simpl.
  apply or_raise_Ok in Ha0, Ha1. done.
Qed.

Lemma solve_init_inv (h w : nat) maze strat verb r cfg s0 :
  solve_init maze strat verb r = Ok (cfg, s0) →
  has_shape h w (s_mat s0) → border_is 1 (s_mat s0) →
  solver_inv h w cfg s0.
Proof.
  intros (_ & _ & _ & Hstart & _ & Hstack)%solve_init_Ok Hs Hb.
  split_and!; [done..|]. intros p Hp.
  assert (p = start cfg) as ->.
  { destruct Hp as [?|Hp]; [done|]. rewrite Hstack in Hp.
    by apply list_elem_of_singleton in Hp. }
  apply nonzero_first_Some in Hstart as (iy & ix & row & -> & Hrow & Hv).
  unfold in_grid, cellZ, cell_at. simpl. rewrite !Nat2Z.id, Hrow. simpl.
  rewrite Hv. split; [|done].
  rewrite <-(has_shape_row _ _ _ _ _ Hs Hrow).
  apply lookup_lt_Some in Hrow, Hv.
  rewrite (has_shape_length _ _ _ Hs) in Hrow. lia.
Qed.





(** ** Termination of the exploration loop *)

Section count.
Context {A : Type} (P : A → Prop) `{!∀ a, Decision (P a)}.

Lemma count_insert (row : list A) ix old v :
  row !! ix = Some old →
  (length (filter P (<[ix := v]> row)) + weight P old =
   length (filter P row) + weight P v)%nat.
Proof.
  revert ix. induction row as [|a row IH]; intros [|ix] Hix; simplify_eq/=.
  - rewrite !filter_cons. unfold weight. repeat case_decide; simpl; lia.
  - specialize (IH _ Hix). rewrite !filter_cons.
    case_decide; simpl; lia.
Qed.

Lemma count_put_row (mat : list (list A)) iy ix row old v :
  mat !! iy = Some row → row !! ix = Some old →
  (length (filter P (mjoin (alter (fun r => <[ix := v]> r) iy mat))) + weight P old =
   length (filter P (mjoin mat)) + weight P v)%nat.
Proof.
  revert iy. induction mat as [|r mat IH]; intros [|iy] Hrow Hold; simplify_eq/=.
  - rewrite !filter_app, !length_app.
    pose proof (count_insert _ _ _ v Hold). lia.
  - rewrite !filter_app, !length_app. specialize (IH _ Hrow Hold). lia.
Qed.
End count.

Lemma open_cells_put_at mat p old v :
  cell_at mat p = Some old →
  (open_cells (put_at mat p v) + (if admissible old then 1 else 0) =
   open_cells mat + (if admissible v then 1 else 0))%nat.
Proof.
  unfold cell_at, open_cells, put_at. intros H.
  destruct (mat !! p.1) as [row|] eqn:Hrow; simpl in H; [|done].
  pose proof (count_put_row (fun v => admissible v) mat _ _ _ _ v Hrow H) as Hc.
  unfold weight in Hc.
  destruct (admissible old), (admissible v); simpl in Hc;
    rewrite ?decide_True in Hc by done; rewrite ?decide_False in Hc by (by intros []);
    exact Hc.
Qed.

(** Visiting a cell: it is marked Current and then Visited. *)
Lemma visit_cell mat y x m1 m2 :
  mat_set mat y x (c0 c_current) = Ok m1 →
  mat_set m1 y x (c0 c_visited) = Ok m2 →
  ∃ old,
    mat_get mat y x = Ok old ∧
    (open_cells m2 + (if admissible old then 1 else 0) = open_cells mat)%nat ∧
    ∀ q, admissible_cell m2 q =
         if decide (locate mat q.1 q.2 = locate mat y x) then false
         else admissible_cell mat q.
Proof.
  intros H1 H2.
  pose proof (mat_set_locate _ _ _ _ _ y x H1) as Hl1.
  assert (∀ q, admissible_cell m2 q =
               if decide (locate mat q.1 q.2 = locate mat y x) then false
               else admissible_cell mat q) as Hq.
  { intros q. unfold admissible_cell.
    rewrite (mat_get_set _ _ _ _ _ q.1 q.2 H2), (mat_get_set _ _ _ _ _ q.1 q.2 H1).
    rewrite (mat_set_locate _ _ _ _ _ q.1 q.2 H1), Hl1.
    by case_decide. }
  apply mat_set_Ok in H1 as (p & Hp & ->).
  apply mat_set_Ok in H2 as (p' & Hp' & ->).
  rewrite Hl1, Hp in Hp'. injection Hp' as <-.
  destruct (locate_cell _ _ _ _ Hp) as [old Hold]. exists old. split_and!.
  - unfold mat_get. rewrite Hp. simpl. by rewrite Hold.
  - pose proof (open_cells_put_at _ _ _ (c0 c_current) Hold) as Hc1.
    assert (cell_at (put_at mat p (c0 c_current)) p = Some (c0 c_current)) as Hcur.
    { rewrite cell_at_put_at by done. by rewrite decide_True. }
    pose proof (open_cells_put_at _ _ _ (c0 c_visited) Hcur) as Hc2.
    change (admissible (c0 c_current)) with true in *.
    change (admissible (c0 c_visited)) with false in *.
    cbn iota in Hc1, Hc2. destruct (admissible old); lia.
  - done.
Qed.

Lemma pop_perm strat stack cur rest :
  pop strat stack = Some (cur, rest) → stack ≡ₚ cur :: rest.
Proof.
  unfold pop. case_decide.
  - destruct stack as [|c stack]; [done|]. by intros [= -> ->].
  - destruct (last stack) as [c|] eqn:Hl; simpl; [|done].
    intros [= <- <-]. apply last_Some in Hl as [l' ->].
    rewrite removelast_last. by rewrite Permutation_app_comm.
Qed.

Lemma stale_ext m1 m2 stack :
  (∀ q, admissible_cell m1 q = admissible_cell m2 q) → stale m1 stack = stale m2 stack.
Proof.
  intros H. unfold stale. induction stack as [|p stack IH]; [done|].
  rewrite !filter_cons, H. case_decide; simpl; by rewrite IH.
Qed.

Lemma stale_fresh mat next :
  (∀ q, q ∈ next → admissible_cell mat q) → stale mat next = 0%nat.
Proof.
  intros H. unfold stale. induction next as [|p next IH]; [done|].
  rewrite filter_cons, decide_False.
  - apply IH. intros q Hq. apply H. by right.
  - intros Hp. apply Hp, H. by left.
Qed.

(** An iteration that goes on, below verbosity 3, either closes a cell or
    leaves the cells as they are and takes a stale entry off the stack. *)
Lemma solve_body_decreases cfg s cur rest s' :
  verbosity cfg < 3 →
  s_stack s ≡ₚ cur :: rest →
  solve_body cfg s cur rest = Ok (Continue s') →
  (open_cells (s_mat s') < open_cells (s_mat s))%nat ∨
  (open_cells (s_mat s') = open_cells (s_mat s) ∧
   stale (s_mat s') (s_stack s') < stale (s_mat s) (s_stack s))%nat.
Proof.
  intros Hverb Hperm Hb. unfold solve_body in Hb. destruct cur as [y x].
  inv_bind Hb. destruct (decide ((y, x) = end_ cfg)) as [He|He].
  { inv_bind Hb. by inv_bind Hb. }
  inv_bind Hb. inv_bind Hb.
  destruct (if decide (strategy cfg = "a*"%string) then _ else _)
    as [next' r'] eqn:Hnext'.
  assert (next' ≡ₚ a1) as Hnp.
  { destruct (decide (strategy cfg = "a*"%string)).
    - injection Hnext' as <- <-. apply sorted_perm.
    - pose proof (shuffle_perm a1 (s_rng s)) as Hp. by rewrite Hnext' in Hp. }
  destruct (decide (verbosity cfg >= 3)); [lia|].
  inv_bind Hb. injection Ha2 as <-.
  injection Hb as <-. simpl.
  destruct (visit_cell _ _ _ _ _ Ha Ha0) as (old & Hold & Hopen & Hadm).
  destruct (admissible old) eqn:Hao; [left; lia|]. right. split; [lia|].
  assert (∀ q, admissible_cell a0 q = admissible_cell (s_mat s) q) as Hsame.
  { intros q. rewrite Hadm.
    destruct (decide (locate (s_mat s) q.1 q.2 = locate (s_mat s) y x))
      as [Hloc|]; [|done].
    unfold admissible_cell, mat_get. rewrite Hloc.
    unfold mat_get in Hold. destruct (locate (s_mat s) y x ≫= cell_at (s_mat s));
      simpl in *; [|done]. injection Hold as ->. by rewrite Hao. }
  unfold stale at 1. rewrite filter_app, length_app.
  fold (stale a0 rest). fold (stale a0 next').
  rewrite (stale_fresh a0 next'), (stale_ext a0 (s_mat s)) by
    (first [done | intros q Hq; rewrite Hnp in Hq;
                   apply prospect_filter in Ha1 as ->;
                   by apply list_elem_of_filter in Hq as [? _]]).
  unfold stale. rewrite Hperm, filter_cons, decide_True; [simpl; lia|].
  unfold admissible_cell. simpl. rewrite Hold, Hao. by intros [].
Qed.

Lemma mat_get_Raise mat y x e : mat_get mat y x = Raise e → e = IndexError.
Proof. unfold mat_get. destruct (_ ≫= _); simpl; congruence. Qed.

Lemma prospect_Raise mat ps e : prospect mat ps = Raise e → e = IndexError.
Proof.
  induction ps as [|p ps IH]; simpl; [done|].
  destruct (mat_get mat p.1 p.2) eqn:Hg; simpl.
  - destruct (prospect mat ps); simpl; [done|]. intros [= <-]. by apply IH.
  - intros [= <-]. by eapply mat_get_Raise.
Qed.

Lemma bind_Raise {A B} (f : A → result B) (m : result A) e :
  m ≫= f = Raise e → m = Raise e ∨ ∃ a, m = Ok a ∧ f a = Raise e.
Proof. destruct m as [a|e']; simpl; [by eauto | intros [= ->]; by left]. Qed.

(** The only exception an iteration raises is [IndexError]. *)
Lemma solve_body_Raise cfg s cur rest e :
  solve_body cfg s cur rest = Raise e → e = IndexError.
Proof.
  unfold solve_body. destruct cur as [y x]. intros H.
  apply bind_Raise in H as [H|(m1 & _ & H)]; [by eapply mat_set_Raise|].
  destruct (decide ((y, x) = end_ cfg)).
  - apply bind_Raise in H as [H|(m2 & _ & H)]; [by eapply mat_set_Raise|].
    apply bind_Raise in H as [H|(m3 & _ & H)]; [by eapply mat_set_Raise|done].
  - apply bind_Raise in H as [H|(m2 & _ & H)]; [by eapply mat_set_Raise|].
    apply bind_Raise in H as [H|(next & _ & H)]; [by eapply prospect_Raise|].
    destruct (if decide (strategy cfg = "a*"%string) then _ else _) as [next' r'].
    apply bind_Raise in H as [H|(m3 & _ & H)]; [|done].
    destruct (decide (verbosity cfg >= 3)); [by eapply mat_set_Raise|done].
Qed.

Lemma solve_loop_S fuel cfg s s' v :
  solve_iter cfg s = Some (Ok (Continue s')) →
  solve_loop fuel cfg s' = Some v → solve_loop (S fuel) cfg s = Some v.
Proof. intros Hit Hl. simpl. by rewrite Hit. Qed.

(** Below verbosity 3 the loop stops from every state. *)
Lemma solve_loop_stops cfg :
  verbosity cfg < 3 →
  ∀ s, ∃ fuel v, solve_loop fuel cfg s = Some v ∧ loop_outcome cfg v.
Proof.
  intros Hverb.
  assert (∀ n m s, open_cells (s_mat s) = n → stale (s_mat s) (s_stack s) = m →
            ∃ fuel v, solve_loop fuel cfg s = Some v ∧ loop_outcome cfg v) as Hwf;
    [|by eauto].
  induction n as [n IHn] using lt_wf_ind.
  induction m as [m IHm] using lt_wf_ind. intros s Hn Hm.
  destruct (solve_iter cfg s) as [[[s'|s']|e]|] eqn:Hit.
  - pose proof Hit as Hit'.
    apply solve_iter_body in Hit' as (cur & rest & Hpop & Hb).
    apply pop_perm in Hpop.
    destruct (solve_body_decreases _ _ _ _ _ Hverb Hpop Hb) as [Hlt|[Heq Hlt]].
    + destruct (IHn _ ltac:(by rewrite <-Hn) _ s' eq_refl eq_refl)
        as (fuel & v & Hl & Hv).
      exists (S fuel), v. split; [by eapply solve_loop_S|done].
    + destruct (IHm _ ltac:(by rewrite <-Hm) s' ltac:(by rewrite Heq) eq_refl)
        as (fuel & v & Hl & Hv).
      exists (S fuel), v. split; [by eapply solve_loop_S|done].
  - exists 1%nat, (Ok (ExitAt s')). simpl. rewrite Hit. split; [done|]. simpl.
    apply solve_iter_body in Hit as (cur & rest & _ & Hb).
    apply solve_body_counters in Hb as (Hcur & _ & _ & _ & Hbr). simpl in Hcur.
    case_decide; [by rewrite Hcur|]. by destruct Hbr.
  - exists 1%nat, (Raise e). simpl. rewrite Hit. split; [done|]. simpl.
    unfold solve_iter in Hit. destruct (pop _ _) as [[cur rest]|]; simpl in Hit; [|done].
    injection Hit as Hit. by eapply solve_body_Raise.
  - exists 0%nat, (Ok (Exhausted s)). simpl. rewrite Hit. split; [done|]. simpl.
    unfold solve_iter, pop in Hit. case_decide.
    + by destruct (s_stack s).
    + destruct (last (s_stack s)) eqn:Hl; simpl in Hit; [done|].
      by apply last_None in Hl.
Qed.




(** From verbosity 3 on, the body ends by marking the popped cell Current
    again, and a Current cell may be stepped on: on this maze, whose End
    cell is walled off, the loop goes back and forth between two cells for
    ever. *)
Lemma verbose_loop_runs_forever :
  ∀ fuel, solve fuel (txt "######
#& #!#
######") "dfs" 3 [] = None.
Proof.
  intros fuel. unfold solve.
  assert (solve_init (txt "######
#& #!#
######") "dfs" 3 []
          = Ok (Setup "dfs" 3 1 (1, 1) (1, 4),
                Solver [[1; 1; 1; 1; 1; 1]; [1; 2; 0; 1; 3; 1]; [1; 1; 1; 1; 1; 1]]
                       [(1, 1)] (1, 1) 0 0 0 0 [])) as ->
    by (vm_compute; reflexivity).
  set (cfg := Setup "dfs" 3 1 (1, 1) (1, 4)).
  set (J := fun s : solver =>
    (s_mat s = [[1; 1; 1; 1; 1; 1]; [1; 2; 0; 1; 3; 1]; [1; 1; 1; 1; 1; 1]] ∧
     s_stack s = [(1, 1)]) ∨
    (s_mat s = [[1; 1; 1; 1; 1; 1]; [1; 7; 0; 1; 3; 1]; [1; 1; 1; 1; 1; 1]] ∧
     s_stack s = [(1, 2)]) ∨
    (s_mat s = [[1; 1; 1; 1; 1; 1]; [1; 7; 7; 1; 3; 1]; [1; 1; 1; 1; 1; 1]] ∧
     (s_stack s = [(1, 1)] ∨ s_stack s = [(1, 2)]))).
  assert (∀ s, J s → ∃ s', solve_iter cfg s = Some (Ok (Continue s')) ∧ J s')
    as Hstep.
  { intros [mat stack cur st ex wa md rg] HJ. unfold J in HJ. simpl in HJ.
    destruct HJ as [[-> ->]|[[-> ->]|[-> [->| ->]]]];
      (eexists; split; [reflexivity|]); unfold J; simpl; auto. }
  assert (∀ n s, J s → solve_loop n cfg s = None) as Hloop.
  { induction n as [|n IH]; intros s HJ;
      destruct (Hstep s HJ) as (s' & Hit & HJ'); simpl; rewrite Hit; [done|].
    by apply IH. }
  apply Hloop. left. done.
Qed.

(** * Further properties *)

(** ** Placing Start and End: when it fails *)

Lemma randrange_Ok (n : nat) r :
  n ≠ 0%nat → ∃ k r', randrange n r = Ok (k, r') ∧ (k < n)%nat.
Proof.
  intros Hn. unfold randrange, randbelow. rewrite decide_False by done.
  destruct (draw r) as [k r']. eexists _, _. split; [done|].
  by apply Nat.mod_upper_bound.
Qed.

(** The marker placement of [make_maze] raises [ValueError] exactly when
    the maze has fewer Path cells than markers to place; otherwise it
    returns a maze. *)
Theorem place_fails_without_room (start end_ : bool) (maze : text) (r : rng) :
  let wanted := ((if start then 1 else 0) + (if end_ then 1 else 0))%nat in
  if decide (length (spaces_of maze) < wanted)%nat
  then place start end_ maze r = Raise ValueError
  else ∃ maze', place start end_ maze r = Ok maze'.
Proof.
  cbv zeta. unfold place. generalize (spaces_of maze) as spaces. intros spaces.
  assert (∀ (l : list nat) r0, l ≠ [] →
            ∃ k r' pos, randrange (length l) r0 = Ok (k, r') ∧
                        l !! k = Some pos ∧ (k < length l)%nat) as Hpick.
  { intros l r0 Hl.
    destruct (randrange_Ok (length l) r0) as (k & r' & Hr & Hk).
    { by destruct l. }
    destruct (lookup_lt_is_Some_2 l k Hk) as [pos Hpos]. eauto 10. }
  assert (∀ r0, randrange (length (@nil nat)) r0 = Raise ValueError) as Hnone
    by done.
  destruct (decide (length spaces < _)%nat) as [Hlt|Hlt];
    destruct start, end_; simpl in Hlt; try lia; bind_step.
  - destruct spaces as [|p1 [|p2 spaces]]; simpl in Hlt; [by rewrite Hnone| |lia].
    destruct (Hpick [p1] r) as (k & r' & pos & -> & -> & Hk); [done|].
    simpl in Hk. replace k with 0%nat by lia. cbn -[randrange]. done.
  - destruct spaces; simpl in Hlt; [by rewrite Hnone|lia].
  - destruct spaces; simpl in Hlt; [by rewrite Hnone|lia].
  - destruct (Hpick spaces r) as (k & r' & pos & -> & -> & Hk).
    { intros ->. simpl in Hlt. lia. }
    cbn -[randrange].
    destruct (Hpick (delete k spaces) r') as (j & r'' & pos' & -> & -> & Hj).
    { intros Hnil%(f_equal length).
      rewrite length_delete in Hnil by (by apply lookup_lt_is_Some_2).
      simpl in Hnil. lia. }
    cbn -[randrange]. eauto.
  - destruct (Hpick spaces r) as (k & r' & pos & -> & -> & Hk).
    { intros ->. simpl in Hlt. lia. }
    cbn -[randrange]. eauto.
  - destruct (Hpick spaces r) as (k & r' & pos & -> & -> & Hk).
    { intros ->. simpl in Hlt. lia. }
    cbn -[randrange]. eauto.
  - eauto.
Qed.

(** ** The frontier under each strategy *)

(** An expansion step takes one cell off the stack, the first under 'bfs'
    and the last otherwise, leaves the others in their order and appends a
    permutation of the admissible neighbours of the popped cell. *)
Theorem expansion_appends_neighbors cfg s s' :
  solve_iter cfg s = Some (Ok (Continue s')) →
  ∃ current rest mat added,
    s_stack s = (if decide (strategy cfg = "bfs"%string)
                 then current :: rest else rest ++ [current]) ∧
    (mat_set (s_mat s) current.1 current.2 (c0 c_current)
       ≫= fun m => mat_set m current.1 current.2 (c0 c_visited)) = Ok mat ∧
    added ≡ₚ filter (admissible_cell mat) (neighbors4 current.1 current.2) ∧
    s_stack s' = rest ++ added.
Proof.
  intros Hit. apply solve_iter_body in Hit as (cur & rest & Hpop & Hb).
  assert (s_stack s = (if decide (strategy cfg = "bfs"%string)
                       then cur :: rest else rest ++ [cur])) as Hstack.
  { case_decide as Hs.
    - unfold pop in Hpop. rewrite decide_True in Hpop by done.
      destruct (s_stack s); [done|]. by injection Hpop as <- <-.
    - by eapply pop_last. }
  unfold solve_body in Hb. destruct cur as [y x].
  inv_bind Hb. destruct (decide ((y, x) = end_ cfg)) as [He|He].
  { inv_bind Hb. by inv_bind Hb. }
  inv_bind Hb. inv_bind Hb.
  destruct (if decide (strategy cfg = "a*"%string) then _ else _)
    as [next' r'] eqn:Hnext'.
  inv_bind Hb. injection Hb as <-. simpl.
  apply prospect_filter in Ha1 as ->.
  exists (y, x), rest, a0, next'. split_and!; [done| |  |done].
  - simpl. by rewrite Ha.
  - destruct (decide (strategy cfg = "a*"%string)).
    + injection Hnext' as <- <-. apply sorted_perm.
    + pose proof (shuffle_perm (filter (admissible_cell a0) (neighbors4 y x))
                               (s_rng s)) as Hp.
      by rewrite Hnext' in Hp.
Qed.

Lemma expansion_appends_neighbors_witness :
  ∃ current rest mat added,
    [(1, 2); (2, 1)] = (if decide ("bfs"%string = "bfs"%string)
                        then current :: rest else rest ++ [current]) ∧
    (mat_set [[1; 1; 1; 1]; [1; 5; 0; 1]; [1; 0; 3; 1]; [1; 1; 1; 1]]
             current.1 current.2 (c0 c_current)
       ≫= fun m => mat_set m current.1 current.2 (c0 c_visited)) = Ok mat ∧
    added ≡ₚ filter (admissible_cell mat) (neighbors4 current.1 current.2) ∧
    [(2, 1); (2, 2)] = rest ++ added.
Proof.
  apply (expansion_appends_neighbors
           (Setup "bfs" 0 1 (1, 1) (2, 2))
           (Solver [[1; 1; 1; 1]; [1; 5; 0; 1]; [1; 0; 3; 1]; [1; 1; 1; 1]]
                   [(1, 2); (2, 1)] (1, 1) 1 1 2 1 [])
           (Solver [[1; 1; 1; 1]; [1; 5; 5; 1]; [1; 0; 3; 1]; [1; 1; 1; 1]]
                   [(2, 1); (2, 2)] (1, 2) 2 2 4 2 [])).
  vm_compute. reflexivity.
Defined.

(** ** Solving a maze with a Wall border *)

Lemma solve_loop_safe (h w : nat) cfg fuel s v :
  solver_inv h w cfg s → solve_loop fuel cfg s = Some v →
  ∃ s', v = Ok (ExitAt s') ∨ v = Ok (Exhausted s').
Proof.
  revert s. induction fuel as [|fuel IH]; intros s Hinv; simpl.
  - destruct (solve_iter cfg s) as [body|] eqn:Hit; [done|].
    intros [= <-]. eauto.
  - destruct (solve_iter cfg s) as [body|] eqn:Hit; [|intros [= <-]; by eauto].
    unfold solve_iter in Hit.
    destruct (pop (strategy cfg) (s_stack s)) as [[cur rest]|] eqn:Hpop;
      simpl in Hit; [|done].
    injection Hit as <-. apply pop_elem in Hpop as [Hcur Hrest].
    destruct (solve_body_safe _ _ _ _ _ _ Hinv Hcur Hrest) as (_ & f & -> & Hf).
    destruct f as [s'|s']; [by apply IH|]. intros [= <-]. eauto.
Qed.

(** On a maze whose border is Wall, and below verbosity 3, [solve] raises
    nothing and its loop stops: at the End cell, or with an empty stack. *)
Theorem solve_bordered_finishes (h w : nat) maze strat verb r cfg s0 :
  solve_init maze strat verb r = Ok (cfg, s0) →
  has_shape h w (s_mat s0) →
  border_is (c0 c_wall) (s_mat s0) →
  verb < 3 →
  ∃ fuel s,
    (solve fuel maze strat verb r = Some (Ok (ExitAt s)) ∧ s_current s = end_ cfg) ∨
    (solve fuel maze strat verb r = Some (Ok (Exhausted s)) ∧ s_stack s = []).
Proof.
  intros Hinit Hs Hb Hv. unfold solve. rewrite Hinit.
  pose proof (solve_init_inv _ _ _ _ _ _ _ _ Hinit Hs Hb) as Hinv.
  apply solve_init_Ok in Hinit as (_ & Hverb & _).
  destruct (solve_loop_stops cfg ltac:(by rewrite Hverb) s0)
    as (fuel & v & Hl & Hout).
  destruct (solve_loop_safe _ _ _ _ _ _ Hinv Hl) as (s & [-> | ->]);
    exists fuel, s; [left | right]; done.
Qed.

Lemma solve_bordered_finishes_witness :
  ∃ fuel s,
    (solve fuel (txt "#####
#& !#
#####") "dfs" 0 [] = Some (Ok (ExitAt s)) ∧
     s_current s = end_ (Setup "dfs" 0 1 (1, 1) (1, 3))) ∨
    (solve fuel (txt "#####
#& !#
#####") "dfs" 0 [] = Some (Ok (Exhausted s)) ∧ s_stack s = []).
Proof.
  apply (solve_bordered_finishes 3 5 (txt "#####
#& !#
#####") "dfs" 0 []
           (Setup "dfs" 0 1 (1, 1) (1, 3))
           (Solver [[1; 1; 1; 1; 1]; [1; 2; 0; 3; 1]; [1; 1; 1; 1; 1]]
                   [(1, 1)] (1, 1) 0 0 0 0 [])).
  - vm_compute. reflexivity.
  - reflexivity.
  - intros i j row c Hrow Hc Hij.
    destruct i as [|[|[|i]]]; simpl in Hrow; try discriminate Hrow;
      injection Hrow as <-;
      destruct j as [|[|[|[|[|j]]]]]; simpl in Hc; try discriminate Hc;
      injection Hc as <-; try reflexivity; simpl in Hij; lia.
  - lia.
Defined.

(** ** The array at the exit *)

Lemma solve_body_lengths cfg s cur rest f :
  solve_body cfg s cur rest = Ok f →
  length <$> s_mat (flow_state f) = length <$> s_mat s.
Proof.
  unfold solve_body. destruct cur as [y x]. intros H.
  inv_bind H. apply mat_set_lengths in Ha.
  destruct (decide ((y, x) = end_ cfg)).
  - inv_bind H. inv_bind H. injection H as <-. simpl.
    apply mat_set_lengths in Ha0, Ha1. congruence.
  - inv_bind H. inv_bind H.
    destruct (if decide (strategy cfg = "a*"%string) then _ else _) as [next' r'].
    inv_bind H. injection H as <-. simpl. apply mat_set_lengths in Ha0.
    destruct (decide (verbosity cfg >= 3)).
    + apply mat_set_lengths in Ha2. congruence.
    + injection Ha2 as <-. congruence.
Qed.

Lemma after_pops_lengths cfg s0 k f :
  after_pops k cfg s0 = Some f →
  length <$> s_mat (flow_state f) = length <$> s_mat s0.
Proof.
  revert f. induction k as [|k IH]; intros f Hk.
  - by injection Hk as <-.
  - apply after_pops_S in Hk as (s' & Hk & Hit).
    apply IH in Hk. simpl in Hk. rewrite <-Hk.
    apply solve_iter_body in Hit as (cur & rest & _ & Hb).
    by eapply solve_body_lengths.
Qed.

Lemma nonzero_first_locate mat v p :
  nonzero_first mat v = Some p →
  ∃ q, locate mat p.1 p.2 = Some q ∧ cell_at mat q = Some v.
Proof.
  intros (iy & ix & row & -> & Hrow & Hv)%nonzero_first_Some.
  exists (iy, ix). unfold locate, cell_at. simpl.
  rewrite np_index_of_nat by (by eapply lookup_lt_Some). simpl.
  rewrite Hrow. simpl.
  rewrite np_index_of_nat by (by eapply lookup_lt_Some). by simpl.
Qed.

(** When the loop breaks at the End cell, the array shows the Start
    character at the Start cell and the End character at the End cell
    again, whatever the exploration wrote there. *)
Theorem exit_restores_markers maze strat verb r cfg s0 k s :
  solve_init maze strat verb r = Ok (cfg, s0) →
  after_pops k cfg s0 = Some (Break s) →
  s_current s = end_ cfg ∧
  mat_get (s_mat s) (start cfg).1 (start cfg).2 = Ok (c0 c_start) ∧
  mat_get (s_mat s) (end_ cfg).1 (end_ cfg).2 = Ok (c0 c_end).
Proof.
  intros (_ & _ & _ & Hstart & Hend & _)%solve_init_Ok Hk.
  destruct k as [|k]; [done|].
  apply after_pops_S in Hk as (s1 & Hk & Hit).
  apply after_pops_lengths in Hk. simpl in Hk.
  apply nonzero_first_locate in Hstart as (qs & Hqs & Hvs).
  apply nonzero_first_locate in Hend as (qe & Hqe & Hve).
  assert (qs ≠ qe) as Hne by (intros ->; rewrite Hvs in Hve; discriminate Hve).
  apply solve_iter_body in Hit as (cur & rest & _ & Hb).
  pose proof (solve_body_counters _ _ _ _ _ Hb) as (Hcur & _ & _ & _ & Hbr).
  simpl in Hcur. destruct (decide (cur = end_ cfg)) as [->|]; [|by destruct Hbr].
  split; [done|].
  unfold solve_body in Hb. destruct (end_ cfg) as [y x] eqn:He. simpl in *.
  inv_bind Hb. rewrite decide_True in Hb by done.
  inv_bind Hb. inv_bind Hb. injection Hb as <-. simpl.
  assert (∀ m y' x', length <$> m = length <$> s_mat s0 →
                     locate m y' x' = locate (s_mat s0) y' x') as Hloc
    by (intros; by apply locate_ext).
  pose proof (mat_set_lengths _ _ _ _ _ Ha) as Hl1.
  pose proof (mat_set_lengths _ _ _ _ _ Ha0) as Hl2.
  rewrite (mat_get_set _ _ _ _ _ (start cfg).1 (start cfg).2 Ha1).
  rewrite (mat_get_set _ _ _ _ _ y x Ha1).
  rewrite (mat_get_set _ _ _ _ _ (start cfg).1 (start cfg).2 Ha0).
  rewrite !(Hloc a0), !(Hloc a) by congruence. rewrite Hqs, Hqe.
  split.
  - rewrite decide_False by congruence. by rewrite decide_True.
  - by rewrite decide_True.
Qed.

Lemma exit_restores_markers_witness :
  s_current (Solver [[1; 1; 1; 1; 1]; [1; 2; 5; 3; 1]; [1; 1; 1; 1; 1]]
                    [] (1, 3) 3 3 5 3 []) = (1, 3) ∧
  mat_get [[1; 1; 1; 1; 1]; [1; 2; 5; 3; 1]; [1; 1; 1; 1; 1]] 1 1 = Ok 2 ∧
  mat_get [[1; 1; 1; 1; 1]; [1; 2; 5; 3; 1]; [1; 1; 1; 1; 1]] 1 3 = Ok 3.
Proof.
  apply (exit_restores_markers (txt "#####
#& !#
#####") "a*" 0 []
           (Setup "a*" 0 1 (1, 1) (1, 3))
           (Solver [[1; 1; 1; 1; 1]; [1; 2; 0; 3; 1]; [1; 1; 1; 1; 1]]
                   [(1, 1)] (1, 1) 0 0 0 0 [])
           3
           (Solver [[1; 1; 1; 1; 1]; [1; 2; 5; 3; 1]; [1; 1; 1; 1; 1]]
                   [] (1, 3) 3 3 5 3 [])).
  - vm_compute. reflexivity.
  - vm_compute. reflexivity.
Defined.

(** ** Which neighbour 'a*' visits next *)




(** ** distance *)


(** ** Colours *)

(** [array_to_color_codes_maze] gives every cell a pixel of three bytes:
    the colour of the code whose number the cell holds, black for a value
    that is no code number. *)
Theorem color_of_each_cell (mat : matrix) i j v :
  at_rc mat i j = Some v →
  ∃ px,
    at_rc (array_to_color_codes_maze mat) i j = Some px ∧
    length px = 3%nat ∧ Forall (fun b => 0 ≤ b ≤ 255) px ∧
    (∀ cd, cd ∈ codes → v = c0 cd → px = c2 cd) ∧
    ((∀ cd, cd ∈ codes → v ≠ c0 cd) → px = [0; 0; 0]).
Proof.
  unfold at_rc, array_to_color_codes_maze. intros H.
  rewrite list_lookup_fmap.
  destruct (mat !! i) as [row|]; simpl in *; [|done].
  rewrite list_lookup_fmap, H. simpl. eexists. split; [done|].
  assert (v = 0 ∨ v = 1 ∨ v = 2 ∨ v = 3 ∨ v = 5 ∨ v = 6 ∨ v = 7 ∨
          (∀ cd, cd ∈ codes → v ≠ c0 cd)) as Hv.
  { destruct (decide (v ∈ c0 <$> codes)) as [Hin|Hout].
    - unfold codes in Hin. simpl in Hin.
      repeat (apply elem_of_cons in Hin as [->|Hin]); try tauto.
      by apply not_elem_of_nil in Hin.
    - repeat right. intros cd Hcd ->. apply Hout. by apply list_elem_of_fmap_2. }
  destruct Hv as [->|[->|[->|[->|[->|[->|[->|Hno]]]]]]].
  1-7: split_and!; [done | repeat constructor; lia | | intros Hno; exfalso ].
  1, 3, 5, 7, 9, 11, 13:
    intros cd Hcd Heq; unfold codes in Hcd;
    repeat (apply elem_of_cons in Hcd as [->|Hcd]);
    try discriminate Heq; try reflexivity; by apply not_elem_of_nil in Hcd.
  1: apply (Hno c_path); [unfold codes; repeat constructor|done].
  1: apply (Hno c_wall); [unfold codes; repeat constructor|done].
  1: apply (Hno c_start); [unfold codes; repeat constructor|done].
  1: apply (Hno c_end); [unfold codes; repeat constructor|done].
  1: apply (Hno c_visited); [unfold codes; repeat constructor|done].
  1: apply (Hno c_finalpath); [unfold codes; repeat constructor|done].
  1: apply (Hno c_current); [unfold codes; repeat constructor|done].
  assert (color_of_value v = [0; 0; 0]) as ->.
  { unfold color_of_value, codes. simpl.
    rewrite !decide_False; [done|..];
      intros ->; first [by apply (Hno c_path); [unfold codes; repeat constructor|]
                       |by apply (Hno c_wall); [unfold codes; repeat constructor|]
                       |by apply (Hno c_start); [unfold codes; repeat constructor|]
                       |by apply (Hno c_end); [unfold codes; repeat constructor|]
                       |by apply (Hno c_visited); [unfold codes; repeat constructor|]
                       |by apply (Hno c_finalpath); [unfold codes; repeat constructor|]
                       |by apply (Hno c_current); [unfold codes; repeat constructor|]]. }
  split_and!; [done | repeat constructor; lia | | done].
  intros cd Hcd Heq. by destruct (Hno cd Hcd).
Qed.

Lemma color_of_each_cell_witness :
  ∃ px,
    at_rc (array_to_color_codes_maze [[1; 1]; [3; 4]]) 1 0 = Some px ∧
    length px = 3%nat ∧ Forall (fun b => 0 ≤ b ≤ 255) px ∧
    (∀ cd, cd ∈ codes → 3 = c0 cd → px = c2 cd) ∧
    ((∀ cd, cd ∈ codes → 3 ≠ c0 cd) → px = [0; 0; 0]).
Proof. apply (color_of_each_cell [[1; 1]; [3; 4]] 1 0 3). reflexivity. Defined.
